(** * Lazor solver: a shallow embedding of the beam simulator and the
      placement search, with the properties of its specification.

    Sources embedded: [models.py] (BlockType, Block, Laser, BFFSpec),
    [board.py] (Board and its methods), the laser branch of [parser.py],
    [lazor_core/simulator.py] (the beam simulator) and
    [lazor_core/solver.py] (slot ordering and the two search drivers).

    Conventions.  Python integers are unbounded, so they are [Z]; [//] and
    [%] with the positive divisor 2 are [Z.div] and [Z.modulo] (both floor).
    Python sets of points are [gset (Z * Z)], the [fixed_blocks] dict is a
    [gmap (Z * Z) Block], the insertion-ordered [free_blocks] dict is an
    association list.  Code that can raise returns a [result]. *)

From Stdlib Require Import ZArith Lia Ascii String List Permutation Sorted.
From stdpp Require Import base option list gmap sets strings.

Local Open Scope string_scope.
Local Open Scope Z_scope.

(** ** Exceptions *)

Inductive exn := ValueError | IndexError | KeyError.

Inductive result (A : Type) :=
| Ok (a : A)
| Raise (e : exn).
Arguments Ok {A} a.
Arguments Raise {A} e.

Definition rbind {A B} (m : result A) (k : A -> result B) : result B :=
  match m with
  | Ok a => k a
  | Raise e => Raise e
  end.

Notation "x <-! m ; k" := (rbind m (fun x => k))
  (at level 100, m at next level, right associativity, only parsing).

(** ** models.py *)

Module Models.

Inductive BlockType := REFLECT | OPAQUE | REFRACT.

#[global] Instance BlockType_eq_dec : EqDecision BlockType.
Proof. solve_decision. Defined.

Record Block := mkBlock { kind : BlockType; blk_r : Z; blk_c : Z }.

Record Laser := mkLaser { x : Z; y : Z; vx : Z; vy : Z }.

#[global] Instance Laser_eq_dec : EqDecision Laser.
Proof. solve_decision. Defined.

(** [str.upper()] / [str.lower()] restricted to what the code compares the
    result with: the ASCII letters.  No non-ASCII code point has an ASCII
    letter among a-d, o, x as its case mapping, so membership of the mapped
    token in those literal sets is the same as with the ASCII mapping. *)
Definition ascii_upper (ch : ascii) : ascii :=
  let n := nat_of_ascii ch in
  if (97 <=? n)%nat && (n <=? 122)%nat then ascii_of_nat (n - 32) else ch.

Definition ascii_lower (ch : ascii) : ascii :=
  let n := nat_of_ascii ch in
  if (65 <=? n)%nat && (n <=? 90)%nat then ascii_of_nat (n + 32) else ch.

Fixpoint upper (s : string) : string :=
  match s with
  | EmptyString => EmptyString
  | String ch s' => String (ascii_upper ch) (upper s')
  end.

Fixpoint lower (s : string) : string :=
  match s with
  | EmptyString => EmptyString
  | String ch s' => String (ascii_lower ch) (lower s')
  end.

(** [BlockType.from_letter] *)
Definition from_letter (letter : string) : result BlockType :=
  let m := upper letter in
  if String.eqb m "A" then Ok REFLECT
  else if String.eqb m "B" then Ok OPAQUE
  else if String.eqb m "C" then Ok REFRACT
  else Raise ValueError.

Record BFFSpec := mkBFFSpec {
  grid_tokens : list (list string);
  spec_free_blocks : list (BlockType * Z);
  spec_lasers : list Laser;
  spec_points : list (Z * Z)
}.

End Models.
Export Models.

(** ** board.py *)

Module BoardM.

Record Board := mkBoard {
  grid : list (list string);
  fixed_blocks : gmap (Z * Z) Block;
  free_blocks : list (BlockType * Z);
  lasers : list Laser;
  points : gset (Z * Z)
}.

Definition nrows (b : Board) : Z := Z.of_nat (length (grid b)).

Definition ncols (b : Board) : Z :=
  match grid b with
  | [] => 0
  | row0 :: _ => Z.of_nat (length row0)
  end.

Definition in_bounds (b : Board) (r c : Z) : bool :=
  (0 <=? r) && (r <? nrows b) && (0 <=? c) && (c <? ncols b).

(** Python list indexing [l[i]]: a negative index counts from the end, an
    index out of range raises IndexError (here [None]). *)
Definition py_index {A} (l : list A) (i : Z) : option A :=
  if 0 <=? i then l !! Z.to_nat i
  else if - Z.of_nat (length l) <=? i then l !! Z.to_nat (Z.of_nat (length l) + i)
  else None.

(** [self.grid[r][c]] *)
Definition grid_at (g : list (list string)) (r c : Z) : option string :=
  row ← py_index g r; py_index row c.

(** [Board.is_placeable]; the last line indexes the grid and so raises
    IndexError on a row shorter than row 0. *)
Definition is_placeable (b : Board) (r c : Z) : result bool :=
  if negb (in_bounds b r c) then Ok false
  else if bool_decide (is_Some (fixed_blocks b !! (r, c))) then Ok false
  else match grid_at (grid b) r c with
       | Some tok => Ok (String.eqb tok "o")
       | None => Raise IndexError
       end.

(** [Board.place_block] *)
Definition place_block (b : Board) (r c : Z) (k : BlockType) : result Board :=
  ok <-! is_placeable b r c;
  if negb ok then Raise ValueError
  else Ok (mkBoard (grid b) (<[(r, c) := mkBlock k r c]> (fixed_blocks b))
                   (free_blocks b) (lasers b) (points b)).

(** [test_board.grid[r][c] = ch], used by the optimized search after a
    successful [place_block] (so that the cell exists). *)
Definition set_grid (b : Board) (r c : Z) (ch : string) : Board :=
  mkBoard (alter (fun row => <[Z.to_nat c := ch]> row) (Z.to_nat r) (grid b))
          (fixed_blocks b) (free_blocks b) (lasers b) (points b).

(** [Board.remove_block]: [fixed_blocks.pop((r, c), None)] *)
Definition remove_block (b : Board) (r c : Z) : Board :=
  mkBoard (grid b) (delete (r, c) (fixed_blocks b)) (free_blocks b) (lasers b) (points b).

(** Every row is as long as row 0, which [parse_bff] checks before it
    returns and the code then relies on. *)
Definition rectangular (b : Board) : Prop :=
  Forall (fun row => Z.of_nat (length row) = ncols b) (grid b).

(** The tokens [from_bffspec] accepts, in either case. *)
Definition is_grid_token (tok : string) : bool :=
  let up := upper tok in
  String.eqb up "O" || String.eqb up "X"
  || String.eqb up "A" || String.eqb up "B" || String.eqb up "C".

(** What [from_bffspec] leaves in the grid for a token it accepts: 'o' for
    an open cell, 'x' for a blocked cell and for the cell of a fixed block. *)
Definition normalised_cell (tok cell : string) : Prop :=
  cell = if String.eqb (upper tok) "O" then "o" else "x".

(** The inner loop of [from_bffspec] over the tokens of row [r], from column
    [c] on: the normalised row and the fixed blocks found. *)
Fixpoint convert_row (r c : Z) (row : list string) (fixed : gmap (Z * Z) Block)
  : result (list string * gmap (Z * Z) Block) :=
  match row with
  | [] => Ok ([], fixed)
  | tok :: rest =>
      let up := upper tok in
      if String.eqb up "O" || String.eqb up "X" then
        res <-! convert_row r (c + 1) rest fixed;
        Ok (lower up :: res.1, res.2)
      else if String.eqb up "A" || String.eqb up "B" || String.eqb up "C" then
        k <-! from_letter up;
        res <-! convert_row r (c + 1) rest (<[(r, c) := mkBlock k r c]> fixed);
        Ok ("x" :: res.1, res.2)
      else Raise ValueError
  end.

(** The outer loop of [from_bffspec], from row [r] on. *)
Fixpoint convert_rows (r : Z) (rows : list (list string)) (fixed : gmap (Z * Z) Block)
  : result (list (list string) * gmap (Z * Z) Block) :=
  match rows with
  | [] => Ok ([], fixed)
  | row :: rest =>
      res <-! convert_row r 0 row fixed;
      res' <-! convert_rows (r + 1) rest res.2;
      Ok (res.1 :: res'.1, res'.2)
  end.

(** [Board.from_bffspec] *)
Definition from_bffspec (spec : BFFSpec) : result Board :=
  res <-! convert_rows 0 (grid_tokens spec) ∅;
  Ok (mkBoard res.1 res.2 (spec_free_blocks spec) (spec_lasers spec)
              (list_to_set (spec_points spec))).

End BoardM.
Export BoardM.

(** ** parser.py: the laser branch of the line loop of [parse_bff] *)

Module Parser.

Definition digit_of (ch : ascii) : option Z :=
  let n := nat_of_ascii ch in
  if (48 <=? n)%nat && (n <=? 57)%nat then Some (Z.of_nat (n - 48)) else None.

Fixpoint parse_digits (s : string) (acc : Z) : option Z :=
  match s with
  | EmptyString => Some acc
  | String ch s' => d ← digit_of ch; parse_digits s' (10 * acc + d)
  end.

(** A token matching [-?\d+], converted by [int]. *)
Definition parse_int (s : string) : option Z :=
  match s with
  | EmptyString => None
  | String "-" EmptyString => None
  | String "-" s' => Z.opp <$> parse_digits s' 0
  | _ => parse_digits s 0
  end.

(** The fields of a normalised line (single spaces between fields). *)
Fixpoint fields_from (cur : string) (s : string) : list string :=
  match s with
  | EmptyString => [cur]
  | String " " s' => cur :: fields_from EmptyString s'
  | String ch s' => fields_from (cur ++ String ch EmptyString)%string s'
  end.

Definition fields (s : string) : list string := fields_from EmptyString s.

(** Lines 73-78: the line matches [L x y vx vy] and the four integers become
    a [Laser], with no test on them; [None] when the line does not match. *)
Definition parse_laser_line (ln : string) : option Laser :=
  match fields ln with
  | [tag; fx; fy; fvx; fvy] =>
      if String.eqb tag "L" || String.eqb tag "l" then
        px ← parse_int fx; py ← parse_int fy;
        pvx ← parse_int fvx; pvy ← parse_int fvy;
        Some (mkLaser px py pvx pvy)
      else None
  | _ => None
  end.

End Parser.
Export Parser.

(** ** lazor_core/simulator.py *)

Module Simulator.

(** [get_block_at_position] *)
Definition get_block_at_position (b : Board) (row col : Z) : option Block :=
  if in_bounds b row col then fixed_blocks b !! (row, col) else None.

Definition is_block_ch (s : string) : bool :=
  String.eqb s "a" || String.eqb s "b" || String.eqb s "c" || String.eqb s "d".

(** [_block_ch_at]: the grid marker first, [fixed_blocks] as the fallback.
    The grid access sits in a [try ... except Exception: pass], so a failed
    index falls through to the fallback. *)
Definition _block_ch_at (b : Board) (r c : Z) : option string :=
  if negb (in_bounds b r c) then None
  else
    let from_fixed :=
      match fixed_blocks b !! (r, c) with
      | Some blk =>
          match kind blk with
          | REFLECT => Some "a"
          | OPAQUE => Some "b"
          | REFRACT => Some "c"
          end
      | None => None
      end in
    match grid_at (grid b) r c with
    | Some gch => if is_block_ch (lower gch) then Some (lower gch) else from_fixed
    | None => from_fixed
    end.

Definition _reflect_slash (vx vy : Z) : Z * Z := (- vy, - vx).

Definition _reflect_backslash (vx vy : Z) : Z * Z := (vy, vx).

(** [_interact] *)
Definition _interact (block_ch : string) (vx vy : Z) (boundary : string)
  : list (Z * Z) :=
  if String.eqb block_ch "b" then []
  else if String.eqb block_ch "a" then [_reflect_slash vx vy]
  else if String.eqb block_ch "d" then [_reflect_backslash vx vy]
  else if String.eqb block_ch "c" then
    let passing := (vx, vy) in
    let reflected :=
      if String.eqb boundary "vertical" then (- vx, vy)
      else if String.eqb boundary "horizontal" then (vx, - vy)
      else (- vx, - vy) in
    [passing; reflected]
  else [(vx, vy)].

(** First candidate cell holding a block marker (the [for ... if ch: return ch]
    loops of the two edge lookups). *)
Fixpoint first_block (b : Board) (candidates : list (Z * Z)) : option string :=
  match candidates with
  | [] => None
  | (r, c) :: rest =>
      match _block_ch_at b r c with
      | Some ch => Some ch
      | None => first_block b rest
      end
  end.

(** [_block_across_vertical_edge] *)
Definition _block_across_vertical_edge (b : Board) (mx y vy : Z) : option string :=
  if negb (mx `mod` 2 =? 1) then None
  else
    let c := (mx - 1) `div` 2 in
    let up_r := (y - 1) `div` 2 in
    let down_r := (y + 1) `div` 2 in
    let candidates :=
      if vy >? 0 then [(down_r, c); (up_r, c)]
      else if vy <? 0 then [(up_r, c); (down_r, c)]
      else [(up_r, c); (down_r, c)] in
    first_block b candidates.

(** [_block_across_horizontal_edge] *)
Definition _block_across_horizontal_edge (b : Board) (x my vx : Z) : option string :=
  if negb (my `mod` 2 =? 1) then None
  else
    let r := (my - 1) `div` 2 in
    let left_c := (x - 1) `div` 2 in
    let right_c := (x + 1) `div` 2 in
    let candidates :=
      if vx >? 0 then [(r, right_c); (r, left_c)]
      else if vx <? 0 then [(r, left_c); (r, right_c)]
      else [(r, left_c); (r, right_c)] in
    first_block b candidates.

(** [interactions.append((boundary, blk))] guarded by [if blk:] *)
Definition interaction (boundary : string) (blk : option string)
  : list (string * string) :=
  match blk with
  | Some ch => [(boundary, ch)]
  | None => []
  end.

(** One round of the sequential application: every current beam goes through
    the block. *)
Definition interact_all (boundary block_ch : string) (beams : list (Z * Z))
  : list (Z * Z) :=
  flat_map (fun bv => _interact block_ch bv.1 bv.2 boundary) beams.

(** The loop over [interactions], with its [break] on an empty beam list. *)
Fixpoint apply_interactions (interactions : list (string * string))
  (beams : list (Z * Z)) : list (Z * Z) :=
  match interactions with
  | [] => beams
  | (boundary, block_ch) :: rest =>
      let next_beams := interact_all boundary block_ch beams in
      match next_beams with
      | [] => []
      | _ => apply_interactions rest next_beams
      end
  end.

(** The interactions collected by [_step_and_collide] for a step from (x, y)
    with direction (vx, vy). *)
Definition collect_interactions (b : Board) (x y vx vy : Z)
  : list (string * string) :=
  let nx := x + vx in
  let ny := y + vy in
  let mx := (x + nx) `div` 2 in
  let my := (y + ny) `div` 2 in
  let hit_vertical := mx `mod` 2 =? 1 in
  let hit_horizontal := my `mod` 2 =? 1 in
  if hit_vertical && hit_horizontal then
    match _block_ch_at b ((my - 1) `div` 2) ((mx - 1) `div` 2) with
    | None =>
        interaction "vertical" (_block_across_vertical_edge b mx y vy)
        ++ interaction "horizontal" (_block_across_horizontal_edge b x my vx)
    | Some corner_block => [("corner", corner_block)]
    end
  else
    (if hit_vertical
     then interaction "vertical" (_block_across_vertical_edge b mx y vy)
     else [])
    ++ (if hit_horizontal
        then interaction "horizontal" (_block_across_horizontal_edge b x my vx)
        else []).

(** [_step_and_collide] *)
Definition _step_and_collide (b : Board) (x y vx vy : Z)
  : Z * Z * list (Z * Z) :=
  (x + vx, y + vy, apply_interactions (collect_interactions b x y vx vy) [(vx, vy)]).

(** *** The main loop of [simulate_board] *)

Record SimState := mkSim {
  active_lasers : list Laser;
  hit_points : gset (Z * Z);
  visited_states : gset (Z * Z * Z * Z);
  iteration : Z
}.

Definition max_iterations : Z := 5000.

Definition state_key (l : Laser) : Z * Z * Z * Z := (x l, y l, vx l, vy l).

(** The margin test, written twice in the source with the same bounds. *)
Definition off_board (b : Board) (px py : Z) : bool :=
  (py <? -10) || (py >? nrows b * 2 + 10) || (px <? -10) || (px >? ncols b * 2 + 10).

(** The [for vx, vy in out_dirs] loop: returns the updated visited-states set
    and the beams appended to the queue, in order. *)
Fixpoint enqueue_dirs (b : Board) (new_x new_y : Z) (out_dirs : list (Z * Z))
  (visited : gset (Z * Z * Z * Z)) : gset (Z * Z * Z * Z) * list Laser :=
  match out_dirs with
  | [] => (visited, [])
  | (dx, dy) :: rest =>
      if off_board b (new_x + dx) (new_y + dy) then
        enqueue_dirs b new_x new_y rest visited
      else if bool_decide ((new_x, new_y, dx, dy) ∈ visited) then
        enqueue_dirs b new_x new_y rest visited
      else
        let r := enqueue_dirs b new_x new_y rest ({[(new_x, new_y, dx, dy)]} ∪ visited) in
        (r.1, mkLaser new_x new_y dx dy :: r.2)
  end.

(** The guard of line 214.  [board.lasers[0]] is only evaluated when
    [iteration <= len(board.lasers)]; the counter is at least 1 there, so the
    list is not empty and the index cannot fail. *)
Definition records_start (b : Board) (iter : Z) (laser : Laser) : bool :=
  (iter >? Z.of_nat (length (lasers b)))
  || match lasers b with
     | l0 :: _ => negb (bool_decide ((x laser, y laser) = (x l0, y l0)))
     | [] => true
     end.

Definition loop_cond (st : SimState) : bool :=
  negb (bool_decide (active_lasers st = [])) && (iteration st <? max_iterations).

(** One iteration of the [while]: the next state and the beams this iteration
    appended to the queue.  The loop condition keeps the body away from an
    empty queue, where [popleft] would fail; that branch leaves the state as
    it is. *)
Definition loop_step (b : Board) (st : SimState) : SimState * list Laser :=
  match active_lasers st with
  | [] => (st, [])
  | laser :: queue =>
      let iter := iteration st + 1 in
      let hits :=
        if records_start b iter laser
        then {[(x laser, y laser)]} ∪ hit_points st
        else hit_points st in
      let '(new_x, new_y, out_dirs) :=
        _step_and_collide b (x laser) (y laser) (vx laser) (vy laser) in
      let hits := {[(new_x, new_y)]} ∪ hits in
      if off_board b new_x new_y then
        (mkSim queue hits (visited_states st) iter, [])
      else
        let r := enqueue_dirs b new_x new_y out_dirs (visited_states st) in
        (mkSim (queue ++ r.2) hits r.1 iter, r.2)
  end.

Definition loop_body (b : Board) (st : SimState) : SimState := (loop_step b st).1.

Fixpoint while_loop (fuel : nat) (b : Board) (st : SimState) : SimState :=
  match fuel with
  | O => st
  | S fuel' => if loop_cond st then while_loop fuel' b (loop_body b st) else st
  end.

Definition init_state (b : Board) : SimState := mkSim (lasers b) ∅ ∅ 0.

(** [simulate_board].  The loop condition bounds the counter by
    [max_iterations], so that many units of fuel run the loop to its exit
    ([simulate_board_exits] below). *)
Definition simulate_board (b : Board) : gset (Z * Z) :=
  hit_points (while_loop (Z.to_nat max_iterations) b (init_state b)).

(** Every beam appended to the queue during the first [fuel] iterations. *)
Fixpoint enqueue_log (fuel : nat) (b : Board) (st : SimState) : list Laser :=
  match fuel with
  | O => []
  | S fuel' =>
      if loop_cond st
      then (loop_step b st).2 ++ enqueue_log fuel' b (loop_body b st)
      else []
  end.

(** The direction [d] has the components of [v] up to sign and order. *)
Definition same_magnitudes (v d : Z * Z) : Prop :=
  (Z.abs d.1, Z.abs d.2) = (Z.abs v.1, Z.abs v.2)
  ∨ (Z.abs d.1, Z.abs d.2) = (Z.abs v.2, Z.abs v.1).

(** The board with its margin of 10 half-block units. *)
Definition within_margin (b : Board) (p : Z * Z) : Prop :=
  -10 ≤ p.1 ≤ ncols b * 2 + 10 ∧ -10 ≤ p.2 ≤ nrows b * 2 + 10.

(** Where a seed laser starts, or where its first step ends. *)
Definition seed_point (b : Board) (p : Z * Z) : Prop :=
  ∃ s, s ∈ lasers b ∧ (p = (x s, y s) ∨ p = (x s + vx s, y s + vy s)).

(** A queued beam is a seed or lies, with its next position, within the
    margin. *)
Definition queued_ok (b : Board) (l : Laser) : Prop :=
  l ∈ lasers b
  ∨ (within_margin b (x l, y l) ∧ within_margin b (x l + vx l, y l + vy l)).

End Simulator.
Export Simulator.

(** ** lazor_core/solver.py *)

Module Solver.

(** *** Enumeration helpers (itertools and [sorted]) *)

(** [itertools.combinations(l, k)], in its emission order. *)
Fixpoint combinations {A} (l : list A) (k : nat) : list (list A) :=
  match k with
  | O => [[]]
  | S k' =>
      match l with
      | [] => []
      | a :: l' => map (cons a) (combinations l' k') ++ combinations l' k
      end
  end.

(** Every element of a list paired with the list without it, by position. *)
Fixpoint selections {A} (l : list A) : list (A * list A) :=
  match l with
  | [] => []
  | a :: l' => (a, l') :: map (fun p => (p.1, a :: p.2)) (selections l')
  end.

(** [itertools.permutations(l)], in its emission order; [n] is the length of
    [l]. *)
Fixpoint permutations_n {A} (n : nat) (l : list A) : list (list A) :=
  match n with
  | O => [[]]
  | S n' => flat_map (fun p => map (cons p.1) (permutations_n n' p.2)) (selections l)
  end.

Definition permutations {A} (l : list A) : list (list A) :=
  permutations_n (length l) l.

(** [itertools.product(('a', 'd'), repeat=n)] *)
Fixpoint product_ad (n : nat) : list (list string) :=
  match n with
  | O => [[]]
  | S n' => flat_map (fun o => map (cons o) (product_ad n')) ["a"; "d"]
  end.

(** Keep the first occurrence of every element (the [seen] set idiom). *)
Fixpoint unique_first_from `{EqDecision A} (seen l : list A) : list A :=
  match l with
  | [] => []
  | a :: l' =>
      if bool_decide (a ∈ seen) then unique_first_from seen l'
      else a :: unique_first_from (a :: seen) l'
  end.

Definition unique_first `{EqDecision A} (l : list A) : list A :=
  unique_first_from [] l.

(** [sorted(l, key=key)]: Python's sort is stable, and a stable sort is
    determined by the order on keys; this is stable insertion sort.  [ltb] is
    [<] on keys. *)
Fixpoint insert_by {A K} (ltb : K → K → bool) (key : A → K) (a : A) (l : list A)
  : list A :=
  match l with
  | [] => [a]
  | b :: l' => if ltb (key b) (key a) then b :: insert_by ltb key a l' else a :: b :: l'
  end.

Definition sorted {A K} (ltb : K → K → bool) (key : A → K) (l : list A) : list A :=
  foldr (insert_by ltb key) [] l.

(** [<] on the key tuples [(bool, int, int)], the boolean as 0 or 1. *)
Definition key3_ltb (k1 k2 : Z * Z * Z) : bool :=
  let '(a1, b1, c1) := k1 in
  let '(a2, b2, c2) := k2 in
  (a1 <? a2) || ((a1 =? a2) && ((b1 <? b2) || ((b1 =? b2) && (c1 <? c2)))).

(** *** Placement enumerator *)

Fixpoint filter_placeable (b : Board) (cells : list (Z * Z)) : result (list (Z * Z)) :=
  match cells with
  | [] => Ok []
  | (r, c) :: rest =>
      ok <-! is_placeable b r c;
      ps <-! filter_placeable b rest;
      Ok (if ok then (r, c) :: ps else ps)
  end.

Definition all_cells (b : Board) : list (Z * Z) :=
  r ← seqZ 0 (nrows b); c ← seqZ 0 (ncols b); [(r, c)].

(** [get_placeable_positions] *)
Definition get_placeable_positions (b : Board) : result (list (Z * Z)) :=
  filter_placeable b (all_cells b).

(** [get_blocks_to_place]; [[t] * n] is empty for a negative [n]. *)
Definition get_blocks_to_place (b : Board) : list BlockType :=
  flat_map (fun tc => replicate (Z.to_nat tc.2) tc.1) (free_blocks b).

(** *** Slot ordering *)

(** [_board_bounds] *)
Definition _board_bounds (b : Board) : Z * Z * Z * Z :=
  (0, ncols b * 2, 0, nrows b * 2).

(** [if board.grid[r][c] == "o": hot.add((r, c))] *)
Definition mark_open (b : Board) (r c : Z) (hot : gset (Z * Z)) : result (gset (Z * Z)) :=
  match grid_at (grid b) r c with
  | Some tok => Ok (if String.eqb tok "o" then {[(r, c)]} ∪ hot else hot)
  | None => Raise IndexError
  end.

(** Marks the cells of a list, in order, each under its own bounds test. *)
Fixpoint mark_cells (b : Board) (cells : list (Z * Z)) (hot : gset (Z * Z))
  : result (gset (Z * Z)) :=
  match cells with
  | [] => Ok hot
  | (r, c) :: rest =>
      if (0 <=? r) && (r <? nrows b) && (0 <=? c) && (c <? ncols b) then
        hot' <-! mark_open b r c hot;
        mark_cells b rest hot'
      else mark_cells b rest hot
  end.

(** The three marking blocks of one step of the empty-board trace. *)
Definition trace_mark (b : Board) (px py dx dy : Z) (hot : gset (Z * Z))
  : result (gset (Z * Z)) :=
  let nx := px + dx in
  let ny := py + dy in
  let mx := (px + nx) `div` 2 in
  let my := (py + ny) `div` 2 in
  hot1 <-! (if negb (dx =? 0) && (dy =? 0) && (mx `mod` 2 =? 1) then
              let c := (mx - 1) `div` 2 in
              if (0 <=? c) && (c <? ncols b)
              then mark_cells b [((py - 1) `div` 2, c); ((py + 1) `div` 2, c)] hot
              else Ok hot
            else Ok hot);
  hot2 <-! (if (dx =? 0) && negb (dy =? 0) && (my `mod` 2 =? 1) then
              let r := (my - 1) `div` 2 in
              if (0 <=? r) && (r <? nrows b)
              then mark_cells b [(r, (px - 1) `div` 2); (r, (px + 1) `div` 2)] hot1
              else Ok hot1
            else Ok hot1);
  if negb (dx =? 0) && negb (dy =? 0) && (mx `mod` 2 =? 1) && (my `mod` 2 =? 1) then
    let r_base := (my - 1) `div` 2 in
    let c_base := (mx - 1) `div` 2 in
    mark_cells b (dr ← [-1; 0; 1]; dc ← [-1; 0; 1]; [(r_base + dr, c_base + dc)]) hot2
  else Ok hot2.

(** The [while] of the trace of one laser; [fuel] is [max_steps], which the
    [steps < max_steps] test makes the exact bound on the iterations. *)
Fixpoint trace_loop (fuel : nat) (b : Board) (px py dx dy : Z)
  (seen : gset (Z * Z * Z * Z)) (steps : Z) (hot : gset (Z * Z))
  : result (gset (Z * Z)) :=
  match fuel with
  | O => Ok hot
  | S fuel' =>
      let '(xmin, xmax, ymin, ymax) := _board_bounds b in
      let max_steps := (xmax + ymax) * 2 in
      if (xmin - 2 <=? px) && (px <=? xmax + 2) && (ymin - 2 <=? py) && (py <=? ymax + 2)
         && (steps <? max_steps) then
        hot' <-! trace_mark b px py dx dy hot;
        let nx := px + dx in
        let ny := py + dy in
        if bool_decide ((nx, ny, dx, dy) ∈ seen) then Ok hot'
        else if (Z.abs nx >? xmax + 10) || (Z.abs ny >? ymax + 10) then Ok hot'
        else trace_loop fuel' b nx ny dx dy ({[(nx, ny, dx, dy)]} ∪ seen) (steps + 1) hot'
      else Ok hot
  end.

Fixpoint trace_lasers (b : Board) (ls : list Laser) (hot : gset (Z * Z))
  : result (gset (Z * Z)) :=
  match ls with
  | [] => Ok hot
  | L :: rest =>
      let '(_, xmax, _, ymax) := _board_bounds b in
      hot' <-! trace_loop (Z.to_nat ((xmax + ymax) * 2)) b (x L) (y L) (vx L) (vy L) ∅ 0 hot;
      trace_lasers b rest hot'
  end.

(** [_hot_slots_by_empty_trace] *)
Definition _hot_slots_by_empty_trace (b : Board) : result (gset (Z * Z)) :=
  trace_lasers b (lasers b) ∅.

(** The key of the hot-first sort: [(rc not in hot, rc[0], rc[1])]. *)
Definition hot_key (hot : gset (Z * Z)) (rc : Z * Z) : Z * Z * Z :=
  (Z.b2z (negb (bool_decide (rc ∈ hot))), rc.1, rc.2).

(** [_sort_slots_by_laser_proximity] *)
Definition _sort_slots_by_laser_proximity (b : Board) (slots : list (Z * Z))
  : result (list (Z * Z)) :=
  hot <-! _hot_slots_by_empty_trace b;
  Ok (sorted key3_ltb (hot_key hot) slots).

(** [min] of a non-empty sequence given as head and tail. *)
Definition min_of (z : Z) (zs : list Z) : Z := foldr Z.min z zs.

(** [dist_to_targets], the inner function of [_sort_slots_target_first]. *)
Definition dist_to_targets (targets : gset (Z * Z)) (rc : Z * Z) : Z :=
  let '(r, c) := rc in
  let px := 2 * c + 1 in
  let py := 2 * r + 1 in
  match map (fun t : Z * Z => Z.abs (px - t.1) + Z.abs (py - t.2)) (elements targets) with
  | [] => 0
  | d :: ds => min_of d ds
  end.

(** [_sort_slots_target_first] *)
Definition _sort_slots_target_first (b : Board) (slots : list (Z * Z))
  : result (list (Z * Z)) :=
  base_sorted <-! _sort_slots_by_laser_proximity b slots;
  Ok (sorted Z.ltb (dist_to_targets (points b)) base_sorted).

(** *** The orders the two sorts realise *)

(** A sort by [key] applied to a list already ordered by [R] orders it by
    the key first and by [R] among equal keys. *)
Definition refines {A K} (ltb : K → K → bool) (key : A → K) (R : A → A → Prop)
  (a b : A) : Prop :=
  ltb (key a) (key b) = true ∨ (ltb (key b) (key a) = false ∧ R a b).

(** Hot cells first, then by row, then by column. *)
Definition hot_first_le (hot : gset (Z * Z)) (p q : Z * Z) : Prop :=
  (p ∈ hot ∧ q ∉ hot)
  ∨ ((p ∈ hot ↔ q ∈ hot) ∧ (p.1 < q.1 ∨ (p.1 = q.1 ∧ p.2 ≤ q.2))).

(** Nearest to a target first; hot-first among cells at the same distance. *)
Definition target_first_le (targets hot : gset (Z * Z)) (p q : Z * Z) : Prop :=
  dist_to_targets targets p < dist_to_targets targets q
  ∨ (dist_to_targets targets p = dist_to_targets targets q ∧ hot_first_le hot p q).

(** No cell outside [hot] stands before a cell of [hot]. *)
Definition hot_before_cold (hot : gset (Z * Z)) (l : list (Z * Z)) : Prop :=
  ∀ (i j : nat) (p q : Z * Z),
    l !! i = Some p → l !! j = Some q → (i < j)%nat → q ∈ hot → p ∈ hot.

(** Every cell of a hot set is a cell of the board holding 'o'. *)
Definition open_cells_only (b : Board) (hot : gset (Z * Z)) : Prop :=
  ∀ r c, (r, c) ∈ hot → in_bounds b r c = true ∧ grid_at (grid b) r c = Some "o".

(** What the trace lemmas show of a marking step [m] started from [hot]: it
    cannot raise on a rectangular board, and it keeps the hot set within the
    open cells. *)
Definition marks_ok (b : Board) (hot : gset (Z * Z)) (m : result (gset (Z * Z))) : Prop :=
  (rectangular b → ∃ hot', m = Ok hot') ∧
  (∀ hot', m = Ok hot' → open_cells_only b hot → open_cells_only b hot').

(** *** Solver drivers *)

(** The target test [board.points.issubset(hit_points)] on a candidate. *)
Definition check_board (b test_board : Board) : option Board :=
  if bool_decide (points b ⊆ simulate_board test_board) then Some test_board else None.

(** A [for] loop whose body may [return] a board: the first candidate that
    yields one ends the search, an exception propagates. *)
Fixpoint first_success {C} (candidates : list C) (body : C → result (option Board))
  : result (option Board) :=
  match candidates with
  | [] => Ok None
  | cand :: rest =>
      r <-! body cand;
      match r with
      | Some found => Ok (Some found)
      | None => first_success rest body
      end
  end.

(** The placing loop of [solve]: cell number [i] of the combination gets
    [block_permutation[i]], evaluated before [place_block] is called. *)
Fixpoint place_all (tb : Board) (pos_combination : list (Z * Z))
  (block_permutation : list BlockType) (i : nat) : result Board :=
  match pos_combination with
  | [] => Ok tb
  | (r, c) :: rest =>
      match block_permutation !! i with
      | None => Raise IndexError
      | Some bt =>
          tb' <-! place_block tb r c bt;
          place_all tb' rest block_permutation (S i)
      end
  end.

(** [solve].  The iteration order of [set(permutations(...))] is not fixed
    by Python (it follows the hashes of the tuples), so it is the parameter
    [set_iter]. *)
Definition solve_with (set_iter : list (list BlockType) → list (list BlockType))
  (b : Board) : result (option Board) :=
  positions <-! get_placeable_positions b;
  let blocks_to_place := get_blocks_to_place b in
  match blocks_to_place with
  | [] => Ok (check_board b b)
  | _ =>
      let num_blocks := length blocks_to_place in
      first_success (combinations positions num_blocks) (fun pos_combination =>
        first_success (set_iter (permutations blocks_to_place)) (fun block_permutation =>
          test_board <-! place_all b pos_combination block_permutation 0;
          Ok (check_board b test_board)))
  end.

Definition solve (b : Board) : result (option Board) := solve_with unique_first b.

(** [generate_unique_permutations], local to [solve_optimized]. *)
Definition generate_unique_permutations (blocks_list : list BlockType)
  : list (list BlockType) :=
  if bool_decide (length (unique_first blocks_list) = 1%nat) then [blocks_list]
  else unique_first (permutations blocks_list).

(** [dict(zip(reflect_positions, orientation_choices))]: a later pair
    overrides an earlier one with the same key. *)
Definition orient_map_of (pairs : list ((Z * Z) * string)) : gmap (Z * Z) string :=
  fold_left (fun m p => <[p.1 := p.2]> m) pairs ∅.

(** The placing loop of [solve_optimized].  [orient_map[(r, c)]] is looked up
    for Reflect blocks only, whose cells are the keys of the map. *)
Fixpoint place_oriented (tb : Board) (placements : list ((Z * Z) * BlockType))
  (orient_map : gmap (Z * Z) string) : result Board :=
  match placements with
  | [] => Ok tb
  | ((r, c), bt) :: rest =>
      tb' <-! place_block tb r c bt;
      ch <-! match bt with
             | REFLECT =>
                 match orient_map !! (r, c) with
                 | Some o => Ok o
                 | None => Raise KeyError
                 end
             | OPAQUE => Ok "b"
             | REFRACT => Ok "c"
             end;
      place_oriented (set_grid tb' r c ch) rest orient_map
  end.

(** The cells of a candidate that receive a Reflect block. *)
Definition reflect_positions_of (placements : list ((Z * Z) * BlockType)) : list (Z * Z) :=
  map fst (filter (fun p => p.2 = REFLECT) placements).

(** The body of the innermost loop of [solve_optimized]: build the candidate
    (a ValueError skips it), simulate, test. *)
Definition try_candidate (b : Board) (placements : list ((Z * Z) * BlockType))
  (orientation_choices : list string) : result (option Board) :=
  let orient_map := orient_map_of (zip (reflect_positions_of placements) orientation_choices) in
  match place_oriented b placements orient_map with
  | Ok test_board => Ok (check_board b test_board)
  | Raise ValueError => Ok None
  | Raise e => Raise e
  end.

(** [solve_optimized]; [debug] only prints and [hot_slots_ratio] is unused. *)
Definition solve_optimized (use_hot_slots : bool) (b : Board) : result (option Board) :=
  positions <-! get_placeable_positions b;
  let blocks_to_place := get_blocks_to_place b in
  match blocks_to_place with
  | [] => Ok (check_board b b)
  | _ =>
      positions <-! (if use_hot_slots then
                       sorted_positions <-! _sort_slots_target_first b positions;
                       _ <-! _hot_slots_by_empty_trace b;
                       Ok sorted_positions
                     else Ok positions);
      let num_blocks := length blocks_to_place in
      if (length positions <? num_blocks)%nat then Ok None
      else
        first_success (combinations positions num_blocks) (fun pos_combo =>
          first_success (generate_unique_permutations blocks_to_place) (fun block_perm =>
            let placements := zip pos_combo block_perm in
            let num_reflects := length (reflect_positions_of placements) in
            first_success (product_ad num_reflects) (try_candidate b placements)))
  end.

(** The marker under which the simulator finds a block of a kind that is
    known through [fixed_blocks] only. *)
Definition kind_marker (k : BlockType) : string :=
  match k with
  | REFLECT => "a"
  | OPAQUE => "b"
  | REFRACT => "c"
  end.

End Solver.
Export Solver.

(** ** Text output: [Board.to_ascii] and [format_board_with_solution] *)

Module Output.

Definition newline : string := String (ascii_of_nat 10) EmptyString.

(** [sep.join(l)] *)
Fixpoint join (sep : string) (l : list string) : string :=
  match l with
  | [] => ""
  | [s] => s
  | s :: rest => (s ++ sep ++ join sep rest)%string
  end.

(** A [for] loop that appends one result per element and stops at the first
    exception. *)
Fixpoint rmapM {A B} (f : A → result B) (l : list A) : result (list B) :=
  match l with
  | [] => Ok []
  | a :: rest => fa <-! f a; frest <-! rmapM f rest; Ok (fa :: frest)
  end.

(** The dict literal [{REFLECT: 'A', OPAQUE: 'B', REFRACT: 'C'}] of both
    functions. *)
Definition letter_of_kind (k : BlockType) : string :=
  match k with
  | REFLECT => "A"
  | OPAQUE => "B"
  | REFRACT => "C"
  end.

(** The inner loop body of [Board.to_ascii]. *)
Definition ascii_cell (b : Board) (r c : Z) : result string :=
  match fixed_blocks b !! (r, c) with
  | Some blk => Ok (letter_of_kind (kind blk))
  | None =>
      match grid_at (grid b) r c with
      | Some ch => Ok ch
      | None => Raise IndexError
      end
  end.

(** The rows of [Board.to_ascii] before they are joined. *)
Definition ascii_rows (b : Board) : result (list (list string)) :=
  rmapM (fun r => rmapM (ascii_cell b r) (seqZ 0 (ncols b))) (seqZ 0 (nrows b)).

(** [Board.to_ascii] *)
Definition to_ascii (b : Board) : result string :=
  rows <-! ascii_rows b;
  Ok (join newline (map (join " ") rows)).

(** The inner loop body of [format_board_with_solution]. *)
Definition solution_cell (b : Board) (r c : Z) : result string :=
  match fixed_blocks b !! (r, c) with
  | Some blk => Ok (letter_of_kind (kind blk))
  | None =>
      match grid_at (grid b) r c with
      | Some ch =>
          let lo := lower ch in
          if String.eqb lo "a" || String.eqb lo "d" then Ok "A"
          else if String.eqb lo "b" || String.eqb lo "c" then Ok (upper ch)
          else Ok ch
      | None => Raise IndexError
      end
  end.

Definition solution_rows (b : Board) : result (list (list string)) :=
  rmapM (fun r => rmapM (solution_cell b r) (seqZ 0 (ncols b))) (seqZ 0 (nrows b)).

(** [format_board_with_solution] of lazor_solver.py *)
Definition format_board_with_solution (b : Board) : result string :=
  rows <-! solution_rows b;
  Ok (join newline
        (["# Solved Board Configuration"; "GRID START"]
         ++ map (join " ") rows ++ ["GRID STOP"])).

(** The token a puzzle grid cell is printed back as. *)
Definition canonical_token (tok : string) : string :=
  let up := upper tok in
  if String.eqb up "A" || String.eqb up "B" || String.eqb up "C" then up else lower up.

End Output.
Export Output.

(** ** Concrete boards used below *)

Module Examples.

Definition open_2x2 : list (list string) := [["o"; "o"]; ["o"; "o"]].

(** The inventories [A 1] and none, as the parser fills the dict. *)
Definition one_mirror : list (BlockType * Z) := [(REFLECT, 1); (OPAQUE, 0); (REFRACT, 0)].

Definition no_blocks : list (BlockType * Z) := [(REFLECT, 0); (OPAQUE, 0); (REFRACT, 0)].

(** One mirror to place, one laser entering row 0 from the left, target
    (2, 0). *)
Definition slash_board : Board :=
  mkBoard open_2x2 ∅ one_mirror [mkLaser 0 1 1 0] {[(2, 0)]}.

Definition slash_board_solved : Board :=
  mkBoard open_2x2 {[(0, 0) := mkBlock REFLECT 0 0]} one_mirror
          [mkLaser 0 1 1 0] {[(2, 0)]}.

(** The same puzzle with target (2, 3), which only a backslash mirror
    reaches: [o o / o o], [A 1], [L 0 1 1 0], [P 2 3]. *)
Definition backslash_spec : BFFSpec :=
  mkBFFSpec open_2x2 one_mirror [mkLaser 0 1 1 0] [(2, 3)].

Definition backslash_board : Board :=
  mkBoard open_2x2 ∅ one_mirror [mkLaser 0 1 1 0] {[(2, 3)]}.

Definition backslash_board_solved : Board :=
  mkBoard [["o"; "o"]; ["d"; "o"]] {[(1, 0) := mkBlock REFLECT 1 0]} one_mirror
          [mkLaser 0 1 1 0] {[(2, 3)]}.

(** Two lasers entering an empty board from the left, in either order:
    [o o / o o], [L 0 1 1 0], [L 0 3 1 0]. *)
Definition two_lasers_spec : BFFSpec :=
  mkBFFSpec open_2x2 no_blocks [mkLaser 0 1 1 0; mkLaser 0 3 1 0] [].

Definition two_lasers : Board :=
  mkBoard open_2x2 ∅ no_blocks [mkLaser 0 1 1 0; mkLaser 0 3 1 0] ∅.

Definition two_lasers_swapped : Board :=
  mkBoard open_2x2 ∅ no_blocks [mkLaser 0 3 1 0; mkLaser 0 1 1 0] ∅.

(** A column of three open cells; the laser crosses row 0 and the target is
    the centre of the cell of row 2. *)
Definition column_board : Board :=
  mkBoard [["o"]; ["o"]; ["o"]] ∅ no_blocks [mkLaser 0 1 1 0] {[(1, 5)]}.

Definition column_slots : list (Z * Z) := [(0, 0); (1, 0); (2, 0)].

Definition column_hot : gset (Z * Z) := {[(0, 0); (1, 0)]}.

(** One mirror and a target, the centre of cell (1, 1), that no placement
    reaches. *)
Definition unreachable_board : Board :=
  mkBoard open_2x2 ∅ one_mirror [mkLaser 0 1 1 0] {[(3, 3)]}.

(** Three mirrors for the two cells of a row. *)
Definition crowded_board : Board :=
  mkBoard [["o"; "o"]] ∅ [(REFLECT, 3); (OPAQUE, 0); (REFRACT, 0)] [mkLaser 0 1 1 0]
          {[(1, 1)]}.

(** The puzzle [o o / o o], [L 2 7 0 0]. *)
Definition zero_dir_spec : BFFSpec :=
  mkBFFSpec open_2x2 no_blocks [mkLaser 2 7 0 0] [].

Definition zero_dir_board : Board :=
  mkBoard open_2x2 ∅ no_blocks [mkLaser 2 7 0 0] ∅.

(** A fixed mirror in the cell the laser meets first: the puzzle
    [A o / o o], [L 0 1 1 0]. *)
Definition fixed_mirror_spec : BFFSpec :=
  mkBFFSpec [["A"; "o"]; ["o"; "o"]] no_blocks [mkLaser 0 1 1 0] [].

Definition fixed_mirror_board : Board :=
  mkBoard [["x"; "o"]; ["o"; "o"]] {[(0, 0) := mkBlock REFLECT 0 0]} no_blocks
          [mkLaser 0 1 1 0] ∅.

(** Refracting blocks below and to the right of the empty cell (0, 0). *)
Definition refract_pair_board : Board :=
  mkBoard [["o"; "x"]; ["x"; "o"]]
          {[(1, 0) := mkBlock REFRACT 1 0; (0, 1) := mkBlock REFRACT 0 1]} no_blocks
          [mkLaser 1 1 1 1] ∅.

End Examples.
Export Examples.

(** ** Properties *)

(** Closed decidable facts about the concrete boards, by evaluation. *)
Ltac by_evaluation :=
  match goal with
  | |- ¬ ?P => apply (bool_decide_eq_false_1 P); vm_compute; reflexivity
  | |- ?x ∉ ?s => apply (bool_decide_eq_false_1 (x ∈ s)); vm_compute; reflexivity
  | |- @eq _ _ _ => vm_compute; reflexivity
  | |- ?P => apply (bool_decide_eq_true_1 P); vm_compute; reflexivity
  end.

(** C2. The interaction function realises the reference table: opaque
    absorbs, the two mirrors map (vx, vy) to (-vy, -vx) and (vy, vx), a
    refracting block yields the unchanged beam plus the beam flipped in the
    axis of the boundary (both axes for any other boundary label), and any
    other marker leaves the beam unchanged. *)
Theorem interact_table (vx vy : Z) :
  (∀ bd, _interact "b" vx vy bd = []) ∧
  (∀ bd, _interact "a" vx vy bd = [(- vy, - vx)]) ∧
  (∀ bd, _interact "d" vx vy bd = [(vy, vx)]) ∧
  _interact "c" vx vy "vertical" = [(vx, vy); (- vx, vy)] ∧
  _interact "c" vx vy "horizontal" = [(vx, vy); (vx, - vy)] ∧
  (∀ bd, bd ≠ "vertical" → bd ≠ "horizontal" →
         _interact "c" vx vy bd = [(vx, vy); (- vx, - vy)]) ∧
  (∀ ch bd, is_block_ch ch = false → _interact ch vx vy bd = [(vx, vy)]).
Proof.
  repeat split; try reflexivity.
  - intros bd Hv Hh. unfold _interact. simpl.
    apply String.eqb_neq in Hv, Hh. by rewrite Hv, Hh.
  - intros ch bd Hch. unfold is_block_ch in Hch.
    repeat (apply orb_false_iff in Hch as [Hch ?]).
    unfold _interact.
    by repeat match goal with H : String.eqb _ _ = false |- _ => rewrite H; clear H end.
Qed.

Lemma interact_table_witness :
  _interact "c" 1 (-1) "corner" = [(1, -1); (-1, 1)] ∧
  _interact "o" 1 (-1) "vertical" = [(1, -1)].
Proof.
  destruct (interact_table 1 (-1)) as (_ & _ & _ & _ & _ & Hcorner & Hnone).
  split; [apply Hcorner; discriminate | apply Hnone; reflexivity].
Defined.

(** *** Block lookup *)

Lemma in_bounds_spec b r c :
  in_bounds b r c = true ↔ 0 ≤ r < nrows b ∧ 0 ≤ c < ncols b.
Proof. unfold in_bounds. rewrite !andb_true_iff. lia. Qed.

Lemma is_block_ch_spec s :
  is_block_ch s = true ↔ s = "a" ∨ s = "b" ∨ s = "c" ∨ s = "d".
Proof.
  unfold is_block_ch. rewrite !orb_true_iff, !String.eqb_eq. tauto.
Qed.

(** Whatever [_block_ch_at] finds is one of the four markers. *)
Lemma block_ch_at_marker b r c ch :
  _block_ch_at b r c = Some ch → is_block_ch ch = true.
Proof.
  unfold _block_ch_at. destruct (negb _); [discriminate|].
  assert (Hfix : match fixed_blocks b !! (r, c) with
                 | Some blk => match kind blk with
                               | REFLECT => Some "a"
                               | OPAQUE => Some "b"
                               | REFRACT => Some "c"
                               end
                 | None => None
                 end = Some ch → is_block_ch ch = true).
  { destruct (fixed_blocks b !! (r, c)) as [blk|]; [|discriminate].
    destruct (kind blk); intros [= <-]; reflexivity. }
  destruct (grid_at (grid b) r c) as [gch|]; [|exact Hfix].
  destruct (is_block_ch (lower gch)) eqn:Hg; [|exact Hfix].
  by intros [= <-].
Qed.

Lemma block_ch_at_fixed_reflect b r c blk :
  in_bounds b r c = true →
  fixed_blocks b !! (r, c) = Some blk →
  kind blk = REFLECT →
  (∀ gch, grid_at (grid b) r c = Some gch → is_block_ch (lower gch) = false) →
  _block_ch_at b r c = Some "a".
Proof.
  intros Hin Hfix Hkind Hgrid.
  unfold _block_ch_at. rewrite Hin, Hfix, Hkind. simpl.
  destruct (grid_at (grid b) r c) as [gch|] eqn:Hg; [|done].
  by rewrite (Hgrid gch eq_refl).
Qed.

(** What [place_block] leaves behind for a Reflect kind is such a block. *)
Lemma place_block_reflect_is_slash b r c b' :
  place_block b r c REFLECT = Ok b' → _block_ch_at b' r c = Some "a".
Proof.
  unfold place_block, is_placeable, rbind.
  destruct (negb (in_bounds b r c)) eqn:Hin; [discriminate|].
  destruct (bool_decide _); [discriminate|].
  destruct (grid_at (grid b) r c) as [tok|] eqn:Hg; [|discriminate].
  destruct (String.eqb tok "o") eqn:Htok; [|discriminate].
  simpl. intros [= <-].
  apply String.eqb_eq in Htok as ->.
  apply negb_false_iff in Hin.
  eapply (block_ch_at_fixed_reflect _ r c (mkBlock REFLECT r c)).
  - exact Hin.
  - simpl. apply lookup_insert_eq.
  - reflexivity.
  - simpl. intros gch. rewrite Hg. by intros [= <-].
Qed.

(** Every fixed block that [from_bffspec] extracts sits on a cell that it
    normalises to 'x'. *)
Lemma convert_row_fixed r row : ∀ c fixed new_row fixed',
  convert_row r c row fixed = Ok (new_row, fixed') →
  ∀ r' c' blk, fixed' !! (r', c') = Some blk →
    fixed !! (r', c') = Some blk
    ∨ (r' = r ∧ c ≤ c' ∧ new_row !! Z.to_nat (c' - c) = Some "x").
Proof.
  induction row as [|tok rest IH]; intros c fixed new_row fixed'; simpl.
  { intros [= <- <-]. by left. }
  destruct (String.eqb (upper tok) "O" || String.eqb (upper tok) "X").
  - destruct (convert_row r (c + 1) rest fixed) as [[row1 fixed1]|e] eqn:Hrest;
      simpl; [|discriminate].
    intros [= <- <-] r' c' blk Hblk.
    destruct (IH _ _ _ _ Hrest r' c' blk Hblk) as [?|(-> & Hc & Hx)]; [by left|right].
    split; [done|]. split; [lia|].
    replace (Z.to_nat (c' - c)) with (S (Z.to_nat (c' - (c + 1)))) by lia. exact Hx.
  - destruct (String.eqb (upper tok) "A" || String.eqb (upper tok) "B"
              || String.eqb (upper tok) "C"); [|discriminate].
    destruct (from_letter (upper tok)) as [k|e]; simpl; [|discriminate].
    destruct (convert_row r (c + 1) rest _) as [[row1 fixed1]|e] eqn:Hrest;
      simpl; [|discriminate].
    intros [= <- <-] r' c' blk Hblk.
    destruct (IH _ _ _ _ Hrest r' c' blk Hblk) as [Hold|(-> & Hc & Hx)].
    + destruct (decide ((r, c) = (r', c'))) as [[= <- <-]|Hne].
      * right. split; [done|]. split; [lia|]. by rewrite Z.sub_diag.
      * left. by rewrite lookup_insert_ne in Hold.
    + right. split; [done|]. split; [lia|].
      replace (Z.to_nat (c' - c)) with (S (Z.to_nat (c' - (c + 1)))) by lia. exact Hx.
Qed.

Lemma convert_rows_fixed rows : ∀ r fixed new_grid fixed',
  convert_rows r rows fixed = Ok (new_grid, fixed') →
  ∀ r' c' blk, fixed' !! (r', c') = Some blk →
    fixed !! (r', c') = Some blk
    ∨ (r ≤ r' ∧ 0 ≤ c' ∧
       ∃ row, new_grid !! Z.to_nat (r' - r) = Some row ∧ row !! Z.to_nat c' = Some "x").
Proof.
  induction rows as [|row rest IH]; intros r fixed new_grid fixed'; simpl.
  { intros [= <- <-]. by left. }
  destruct (convert_row r 0 row fixed) as [[row1 fixed1]|e] eqn:Hrow; simpl; [|discriminate].
  destruct (convert_rows (r + 1) rest fixed1) as [[grid2 fixed2]|e] eqn:Hrest;
    simpl; [|discriminate].
  intros [= <- <-] r' c' blk Hblk.
  destruct (IH _ _ _ _ Hrest r' c' blk Hblk) as [Hold|(Hr & Hc & row' & Hrow' & Hx)].
  - destruct (convert_row_fixed _ _ _ _ _ _ Hrow r' c' blk Hold) as [?|(-> & Hc & Hx)];
      [by left|right].
    split; [lia|]. split; [lia|]. exists row1. rewrite Z.sub_diag. split; [done|].
    by rewrite Z.sub_0_r in Hx.
  - right. split; [lia|]. split; [lia|]. exists row'. split; [|done].
    replace (Z.to_nat (r' - r)) with (S (Z.to_nat (r' - (r + 1)))) by lia. exact Hrow'.
Qed.

Lemma from_bffspec_fixed_on_x spec b r c blk :
  from_bffspec spec = Ok b →
  fixed_blocks b !! (r, c) = Some blk →
  grid_at (grid b) r c = Some "x".
Proof.
  unfold from_bffspec.
  destruct (convert_rows 0 (grid_tokens spec) ∅) as [[g fixed]|e] eqn:Hrows;
    simpl; [|discriminate].
  intros [= <-]. simpl. intros Hblk.
  destruct (convert_rows_fixed _ _ _ _ _ Hrows r c blk Hblk)
    as [Hempty|(Hr & Hc & row & Hrow & Hx)].
  { by rewrite lookup_empty in Hempty. }
  rewrite Z.sub_0_r in Hrow. unfold grid_at, py_index.
  destruct (Z.leb_spec 0 r); [|lia]. rewrite Hrow. simpl.
  destruct (Z.leb_spec 0 c); [|lia]. exact Hx.
Qed.

Lemma from_bffspec_reflect_is_slash spec b r c blk :
  from_bffspec spec = Ok b →
  in_bounds b r c = true →
  fixed_blocks b !! (r, c) = Some blk →
  kind blk = REFLECT →
  _block_ch_at b r c = Some "a".
Proof.
  intros Hb Hin Hblk Hkind.
  apply (block_ch_at_fixed_reflect b r c blk Hin Hblk Hkind).
  intros gch. rewrite (from_bffspec_fixed_on_x spec b r c blk Hb Hblk).
  by intros [= <-].
Qed.

(** A fixed mirror of the puzzle file is such a block too. *)
Example fixed_mirror_from_puzzle :
  from_bffspec fixed_mirror_spec = Ok fixed_mirror_board.
Proof. vm_compute. reflexivity. Qed.

(** C10. A Reflect block that is only in [fixed_blocks], its grid cell
    carrying none of the markers a, b, c, d, is looked up as 'a' and so
    mirrors (vx, vy) to (-vy, -vx) at every boundary: the backslash
    orientation cannot arise for it. *)
Theorem fixed_reflect_is_slash (b : Board) (r c : Z) (blk : Block)
  (vx vy : Z) (boundary : string) :
  in_bounds b r c = true →
  fixed_blocks b !! (r, c) = Some blk →
  kind blk = REFLECT →
  (∀ gch, grid_at (grid b) r c = Some gch → is_block_ch (lower gch) = false) →
  _block_ch_at b r c = Some "a" ∧
  _block_ch_at b r c ≠ Some "d" ∧
  (∀ ch, _block_ch_at b r c = Some ch → _interact ch vx vy boundary = [(- vy, - vx)]).
Proof.
  intros Hin Hfix Hkind Hgrid.
  rewrite (block_ch_at_fixed_reflect b r c blk Hin Hfix Hkind Hgrid).
  split; [done|]. split; [discriminate|].
  by intros ch [= <-].
Qed.

Lemma fixed_reflect_is_slash_witness :
  _block_ch_at fixed_mirror_board 0 0 = Some "a" ∧
  _block_ch_at fixed_mirror_board 0 0 ≠ Some "d" ∧
  (∀ ch, _block_ch_at fixed_mirror_board 0 0 = Some ch →
         _interact ch 1 0 "horizontal" = [(- 0, - 1)]).
Proof.
  apply (fixed_reflect_is_slash fixed_mirror_board 0 0 (mkBlock REFLECT 0 0)
           1 0 "horizontal").
  - reflexivity.
  - reflexivity.
  - reflexivity.
  - intros gch Hg. vm_compute in Hg. injection Hg as <-. reflexivity.
Defined.

(** *** Corner crossings *)

Lemma interact_all_single boundary ch vx vy :
  interact_all boundary ch [(vx, vy)] = _interact ch vx vy boundary.
Proof. unfold interact_all. simpl. apply app_nil_r. Qed.

Lemma apply_interactions_last boundary ch beams :
  apply_interactions [(boundary, ch)] beams = interact_all boundary ch beams.
Proof. simpl. by destruct (interact_all boundary ch beams). Qed.

(** C6. On a step whose midpoint is odd in both axes the block of the cell
    ((my-1)//2, (mx-1)//2) is looked up first and, when there is one, it
    alone interacts, as a corner; only without it are the vertical-edge and
    the horizontal-edge lookups made, and their interactions applied in that
    order, the beams left by the first going through the second. *)
Theorem corner_two_tier (b : Board) (x y vx vy : Z) :
  let mx := (x + (x + vx)) `div` 2 in
  let my := (y + (y + vy)) `div` 2 in
  mx `mod` 2 = 1 → my `mod` 2 = 1 →
  _step_and_collide b x y vx vy =
    (x + vx, y + vy,
     match _block_ch_at b ((my - 1) `div` 2) ((mx - 1) `div` 2) with
     | Some corner_block => _interact corner_block vx vy "corner"
     | None =>
         let after_vertical :=
           match _block_across_vertical_edge b mx y vy with
           | Some blk_v => _interact blk_v vx vy "vertical"
           | None => [(vx, vy)]
           end in
         match _block_across_horizontal_edge b x my vx with
         | Some blk_h =>
             flat_map (fun d => _interact blk_h d.1 d.2 "horizontal") after_vertical
         | None => after_vertical
         end
     end).
Proof.
  intros mx my Hmx Hmy.
  unfold _step_and_collide, collect_interactions.
  fold mx my. rewrite Hmx, Hmy. simpl.
  f_equal.
  destruct (_block_ch_at b ((my - 1) `div` 2) ((mx - 1) `div` 2)) as [corner|].
  - rewrite apply_interactions_last. apply interact_all_single.
  - destruct (_block_across_vertical_edge b mx y vy) as [blk_v|];
      destruct (_block_across_horizontal_edge b x my vx) as [blk_h|]; simpl.
    + rewrite app_nil_r.
      destruct (_interact blk_v vx vy "vertical") as [|d ds] eqn:Hv; [done|].
      unfold interact_all. by destruct (flat_map _ (d :: ds)).
    + rewrite app_nil_r. by destruct (_interact blk_v vx vy "vertical").
    + rewrite !app_nil_r. by destruct (_interact blk_h vx vy "horizontal").
    + done.
Qed.

Lemma corner_two_tier_witness :
  _step_and_collide fixed_mirror_board 1 1 1 1 = (2, 2, [(-1, -1)]).
Proof.
  rewrite (corner_two_tier fixed_mirror_board 1 1 1 1) by reflexivity.
  reflexivity.
Defined.

(** Without a block in the corner cell the two edges are consulted, the
    vertical one first: two refracting blocks split the beam twice. *)
Example corner_fallback :
  _block_ch_at refract_pair_board 0 0 = None ∧
  _step_and_collide refract_pair_board 1 1 1 1 =
    (2, 2, [(1, 1); (1, -1); (-1, 1); (-1, -1)]).
Proof. split; reflexivity. Qed.

(** *** The simulation loop *)

Lemma loop_cond_queue st :
  loop_cond st = true →
  ∃ laser queue, active_lasers st = laser :: queue ∧ iteration st < max_iterations.
Proof.
  unfold loop_cond. rewrite andb_true_iff, negb_true_iff, bool_decide_eq_false.
  intros [Hq Hit]. destruct (active_lasers st) as [|laser queue]; [done|].
  exists laser, queue. split; [done|lia].
Qed.

Lemma loop_body_iteration b st :
  loop_cond st = true → iteration (loop_body b st) = iteration st + 1.
Proof.
  intros (laser & queue & Hq & _)%loop_cond_queue.
  unfold loop_body, loop_step. rewrite Hq.
  destruct (_step_and_collide _ _ _ _ _) as [[new_x new_y] out_dirs].
  by destruct (off_board b new_x new_y).
Qed.

Lemma loop_body_queue b st laser queue :
  active_lasers st = laser :: queue →
  active_lasers (loop_body b st) = (queue ++ (loop_step b st).2)%list.
Proof.
  intros Hq. unfold loop_body, loop_step. rewrite Hq.
  destruct (_step_and_collide _ _ _ _ _) as [[new_x new_y] out_dirs].
  destruct (off_board b new_x new_y); simpl; [by rewrite app_nil_r|done].
Qed.

(** The index of line 214 cannot fail: a positive counter that does not
    exceed the number of lasers finds a first laser. *)
Lemma records_start_index_ok b iter :
  0 < iter → iter ≤ Z.of_nat (length (lasers b)) → ∃ l0 ls, lasers b = l0 :: ls.
Proof.
  destruct (lasers b) as [|l0 ls]; simpl; [lia|eauto].
Qed.

Lemma while_loop_exits b fuel : ∀ st,
  max_iterations - iteration st ≤ Z.of_nat fuel →
  ∃ n : nat,
    while_loop fuel b st = Nat.iter n (loop_body b) st ∧
    loop_cond (Nat.iter n (loop_body b) st) = false ∧
    (∀ m : nat, (m < n)%nat → loop_cond (Nat.iter m (loop_body b) st) = true) ∧
    iteration (Nat.iter n (loop_body b) st) = iteration st + Z.of_nat n ∧
    (n = O ∨ iteration (Nat.iter n (loop_body b) st) ≤ max_iterations).
Proof.
  induction fuel as [|fuel IH]; intros st Hfuel.
  - exists O. simpl. repeat split; [|lia|lia|by left].
    unfold loop_cond. apply andb_false_iff. right. apply Z.ltb_ge. lia.
  - simpl. destruct (loop_cond st) eqn:Hcond.
    + destruct (loop_cond_queue st Hcond) as (_ & _ & _ & Hlt).
      pose proof (loop_body_iteration b st Hcond) as Hit.
      destruct (IH (loop_body b st)) as (n & Hrun & Hstop & Hbefore & Hcount & Hcap);
        [lia|].
      exists (S n). rewrite !Nat.iter_succ_r. repeat split.
      * exact Hrun.
      * exact Hstop.
      * intros [|m] Hm; [exact Hcond|].
        rewrite Nat.iter_succ_r. apply Hbefore. lia.
      * lia.
      * right. destruct Hcap as [->|Hcap]; [simpl; lia|exact Hcap].
    + exists O. simpl. repeat split; [exact Hcond|lia|lia|by left].
Qed.

(** C8. The main loop of the simulation exits after at most 5000 dequeue
    iterations: there is a number n of iterations, at most 5000, after which
    the loop condition fails (the queue is empty or the cap is reached) and
    before which it held; the counter then equals n and the function returns
    the points collected in that state, beams still queued or not. *)
Theorem simulate_board_exits (b : Board) :
  ∃ n : nat,
    (n ≤ 5000)%nat ∧
    loop_cond (Nat.iter n (loop_body b) (init_state b)) = false ∧
    (∀ m : nat, (m < n)%nat → loop_cond (Nat.iter m (loop_body b) (init_state b)) = true) ∧
    iteration (Nat.iter n (loop_body b) (init_state b)) = Z.of_nat n ∧
    simulate_board b = hit_points (Nat.iter n (loop_body b) (init_state b)).
Proof.
  destruct (while_loop_exits b (Z.to_nat max_iterations) (init_state b))
    as (n & Hrun & Hstop & Hbefore & Hcount & Hcap).
  { simpl. unfold max_iterations. lia. }
  exists n. simpl in Hcount. unfold max_iterations in Hcap.
  repeat split; try done.
  - destruct Hcap as [->|Hcap]; lia.
  - unfold simulate_board. by rewrite Hrun.
Qed.

(** *** Cycle protection *)

Lemma enqueue_dirs_fresh b new_x new_y out_dirs : ∀ visited,
  let r := enqueue_dirs b new_x new_y out_dirs visited in
  NoDup (state_key <$> r.2) ∧
  (∀ k, k ∈ state_key <$> r.2 → k ∉ visited) ∧
  (∀ k, k ∈ visited → k ∈ r.1) ∧
  (∀ k, k ∈ state_key <$> r.2 → k ∈ r.1).
Proof.
  induction out_dirs as [|[dx dy] rest IH]; intros visited; simpl.
  - repeat split; [constructor| |done| ]; by intros k ?%elem_of_nil.
  - destruct (off_board b (new_x + dx) (new_y + dy)); [apply IH|].
    destruct (bool_decide_reflect ((new_x, new_y, dx, dy) ∈ visited)) as [Hin|Hnew];
      [apply IH|].
    destruct (IH ({[(new_x, new_y, dx, dy)]} ∪ visited)) as (Hnd & Hfresh & Hmono & Hdone).
    simpl. repeat split.
    + constructor; [|exact Hnd].
      intros Hk. apply Hfresh in Hk. apply Hk, elem_of_union_l. by apply elem_of_singleton.
    + intros k [->|Hk]%elem_of_cons; [exact Hnew|].
      apply Hfresh in Hk. intros Hv. by apply Hk, elem_of_union_r.
    + intros k Hk. by apply Hmono, elem_of_union_r.
    + intros k [->|Hk]%elem_of_cons; [|by apply Hdone].
      apply Hmono, elem_of_union_l. by apply elem_of_singleton.
Qed.

Lemma loop_step_fresh b st :
  NoDup (state_key <$> (loop_step b st).2) ∧
  (∀ k, k ∈ state_key <$> (loop_step b st).2 → k ∉ visited_states st) ∧
  (∀ k, k ∈ visited_states st → k ∈ visited_states (loop_body b st)) ∧
  (∀ k, k ∈ state_key <$> (loop_step b st).2 → k ∈ visited_states (loop_body b st)).
Proof.
  unfold loop_body, loop_step.
  destruct (active_lasers st) as [|laser queue].
  { simpl. repeat split; [constructor| |done| ]; by intros k ?%elem_of_nil. }
  destruct (_step_and_collide _ _ _ _ _) as [[new_x new_y] out_dirs].
  destruct (off_board b new_x new_y).
  { simpl. repeat split; [constructor| |done| ]; by intros k ?%elem_of_nil. }
  simpl. apply enqueue_dirs_fresh.
Qed.

Lemma enqueue_log_fresh b fuel : ∀ st,
  NoDup (state_key <$> enqueue_log fuel b st) ∧
  (∀ k, k ∈ state_key <$> enqueue_log fuel b st → k ∉ visited_states st).
Proof.
  induction fuel as [|fuel IH]; intros st; simpl.
  { split; [constructor|by intros k ?%elem_of_nil]. }
  destruct (loop_cond st); [|split; [constructor|by intros k ?%elem_of_nil]].
  destruct (loop_step_fresh b st) as (Hnd & Hfresh & Hmono & Hdone).
  destruct (IH (loop_body b st)) as (Hnd' & Hfresh').
  rewrite fmap_app. split.
  - apply NoDup_app. repeat split; [exact Hnd| |exact Hnd'].
    intros k Hk Hk'. apply Hfresh' in Hk'. by apply Hdone in Hk.
  - intros k [Hk|Hk]%elem_of_app; [by apply Hfresh|].
    intros Hv. apply Hfresh' in Hk. by apply Hmono in Hv.
Qed.

Lemma queue_from_log b fuel : ∀ st,
  ∃ k : nat,
    active_lasers (while_loop fuel b st) = drop k (active_lasers st ++ enqueue_log fuel b st)%list.
Proof.
  induction fuel as [|fuel IH]; intros st; simpl.
  { exists O. by rewrite app_nil_r. }
  destruct (loop_cond st) eqn:Hcond; [|exists O; by rewrite app_nil_r].
  destruct (loop_cond_queue st Hcond) as (laser & queue & Hq & _).
  destruct (IH (loop_body b st)) as [k Hk].
  exists (S k). rewrite Hk, (loop_body_queue b st laser queue Hq), Hq.
  simpl. by rewrite app_assoc.
Qed.

(** C7. Over any number of iterations of a run, the beams appended to the
    work queue have pairwise different (position, direction) keys, and the
    queue is at every moment a tail of the seed lasers followed by those
    appended beams: no state other than a seed is enqueued twice. *)
Theorem no_state_enqueued_twice (b : Board) (n : nat) :
  NoDup (state_key <$> enqueue_log n b (init_state b)) ∧
  ∃ k : nat,
    active_lasers (while_loop n b (init_state b)) =
    drop k (lasers b ++ enqueue_log n b (init_state b))%list.
Proof.
  split.
  - apply enqueue_log_fresh.
  - apply (queue_from_log b n (init_state b)).
Qed.

(** *** Search soundness *)

Lemma check_board_sound b test_board found :
  check_board b test_board = Some found →
  found = test_board ∧ points b ⊆ simulate_board found.
Proof.
  unfold check_board. destruct (bool_decide_reflect (points b ⊆ simulate_board test_board));
    [|discriminate].
  by intros [= <-].
Qed.

Lemma first_success_sound {C} (P : Board → Prop) (body : C → result (option Board))
  (candidates : list C) :
  (∀ cand found, cand ∈ candidates → body cand = Ok (Some found) → P found) →
  ∀ found, first_success candidates body = Ok (Some found) → P found.
Proof.
  induction candidates as [|cand rest IH]; intros Hbody found; simpl; [discriminate|].
  destruct (body cand) as [[hit|]|e] eqn:Hcand; simpl.
  - intros [= <-]. eapply Hbody; [left|exact Hcand].
  - apply IH. intros cand' found' Hin. apply Hbody. by right.
  - discriminate.
Qed.

Lemma solve_with_sound set_iter b found :
  solve_with set_iter b = Ok (Some found) → points b ⊆ simulate_board found.
Proof.
  unfold solve_with.
  destruct (get_placeable_positions b) as [positions|e]; simpl; [|discriminate].
  destruct (get_blocks_to_place b) as [|bt blocks].
  { intros [= H]. by apply check_board_sound in H as [_ H]. }
  revert found. apply (first_success_sound (fun f => points b ⊆ simulate_board f)).
  intros pos_combination found _. revert found.
  apply (first_success_sound (fun f => points b ⊆ simulate_board f)).
  intros block_permutation found _.
  destruct (place_all b _ _ _) as [test_board|e]; simpl; [|discriminate].
  intros [= H]. by apply check_board_sound in H as [_ H].
Qed.

Lemma try_candidate_sound b placements orientation_choices found :
  try_candidate b placements orientation_choices = Ok (Some found) →
  points b ⊆ simulate_board found.
Proof.
  unfold try_candidate.
  destruct (place_oriented b placements _) as [test_board|[]]; try discriminate.
  intros [= H]. by apply check_board_sound in H as [_ H].
Qed.

Lemma solve_optimized_sound use_hot_slots b found :
  solve_optimized use_hot_slots b = Ok (Some found) → points b ⊆ simulate_board found.
Proof.
  unfold solve_optimized.
  destruct (get_placeable_positions b) as [positions|e]; simpl; [|discriminate].
  destruct (get_blocks_to_place b) as [|bt blocks].
  { intros [= H]. by apply check_board_sound in H as [_ H]. }
  match goal with |- rbind ?m _ = _ → _ => destruct m as [positions'|e] end;
    simpl; [|discriminate].
  destruct (_ <? _)%nat; [discriminate|].
  revert found. apply (first_success_sound (fun f => points b ⊆ simulate_board f)).
  intros pos_combo found _. revert found.
  apply (first_success_sound (fun f => points b ⊆ simulate_board f)).
  intros block_perm found _. revert found.
  apply (first_success_sound (fun f => points b ⊆ simulate_board f)).
  intros orientation_choices found _.
  apply try_candidate_sound.
Qed.

(** C1. Whenever [solve] (with any iteration order of its set of
    permutations) or [solve_optimized] (with or without slot ordering)
    returns a board, simulating that board visits every target point of the
    input board. *)
Theorem solve_sound (set_iter : list (list BlockType) → list (list BlockType))
  (use_hot_slots : bool) (b found : Board) :
  solve_with set_iter b = Ok (Some found)
  ∨ solve_optimized use_hot_slots b = Ok (Some found) →
  points b ⊆ simulate_board found.
Proof.
  intros [H|H]; [eapply solve_with_sound|eapply solve_optimized_sound]; exact H.
Qed.

Lemma solve_sound_witness :
  solve slash_board = Ok (Some slash_board_solved) ∧
  points slash_board ⊆ simulate_board slash_board_solved.
Proof.
  assert (H : solve slash_board = Ok (Some slash_board_solved)) by (vm_compute; reflexivity).
  split; [exact H|].
  apply (solve_sound unique_first true slash_board slash_board_solved).
  left. exact H.
Defined.

(** Both drivers do return boards, and the optimized one may return a
    different one. *)
Example solve_optimized_finds :
  solve_optimized true slash_board =
    Ok (Some (set_grid slash_board_solved 0 0 "a")).
Proof. vm_compute. reflexivity. Qed.

(** *** Mirror orientations in the two drivers *)

(** [solve] never writes the grid: its candidates keep the markers of the
    input board, so a mirror it places is seen through [fixed_blocks] only. *)
Lemma place_block_grid b r c k b' : place_block b r c k = Ok b' → grid b' = grid b.
Proof.
  unfold place_block. destruct (is_placeable b r c) as [[]|]; simpl; try discriminate.
  by intros [= <-].
Qed.

Lemma place_all_grid pos_combination block_permutation : ∀ tb i tb',
  place_all tb pos_combination block_permutation i = Ok tb' → grid tb' = grid tb.
Proof.
  induction pos_combination as [|[r c] rest IH]; intros tb i tb'; simpl.
  { by intros [= <-]. }
  destruct (block_permutation !! i) as [bt|]; [|discriminate].
  destruct (place_block tb r c bt) as [tb1|e] eqn:Hplace; simpl; [|discriminate].
  intros Hrest%IH. rewrite Hrest. by eapply place_block_grid.
Qed.

Lemma solve_with_keeps_grid set_iter b found :
  solve_with set_iter b = Ok (Some found) → grid found = grid b.
Proof.
  unfold solve_with.
  destruct (get_placeable_positions b) as [positions|e]; simpl; [|discriminate].
  destruct (get_blocks_to_place b) as [|bt blocks].
  { intros [= H]. by apply check_board_sound in H as [-> _]. }
  revert found. apply (first_success_sound (fun f => grid f = grid b)).
  intros pos_combination found _. revert found.
  apply (first_success_sound (fun f => grid f = grid b)).
  intros block_permutation found _.
  destruct (place_all b _ _ _) as [test_board|e] eqn:Hplace; simpl; [|discriminate].
  intros [= H]. apply check_board_sound in H as [-> _].
  by eapply place_all_grid.
Qed.

(** [solve_optimized] runs through every choice of '/' and '\' for the
    mirrors of a candidate. *)
Lemma product_ad_complete (os : list string) :
  Forall (fun o => o = "a" ∨ o = "d") os → os ∈ product_ad (length os).
Proof.
  induction 1 as [|o os Ho _ IH]; simpl; [apply list_elem_of_here|].
  rewrite app_nil_r. apply elem_of_app.
  destruct Ho as [->| ->]; [left|right]; apply list_elem_of_fmap; eauto.
Qed.

Example backslash_board_from_puzzle :
  from_bffspec backslash_spec = Ok backslash_board.
Proof. vm_compute. reflexivity. Qed.

(** C3. On the puzzle [backslash_board] (2x2 open grid, one Reflect block,
    laser L 0 1 1 0, target P 2 3) [solve] places the mirror in each of the
    four cells in its only reachable orientation '/', misses the target every
    time and reports no solution, while [solve_optimized] also tries '\' and
    returns the board with that mirror in cell (1, 0). *)
Theorem solve_misses_backslash :
  solve backslash_board = Ok None ∧
  solve_optimized true backslash_board = Ok (Some backslash_board_solved) ∧
  grid_at (grid backslash_board_solved) 1 0 = Some "d" ∧
  points backslash_board ⊆ simulate_board backslash_board_solved.
Proof.
  repeat split; by_evaluation.
Qed.

(** *** Seed positions *)

Lemma loop_body_hits b st p :
  p ∈ hit_points st → p ∈ hit_points (loop_body b st).
Proof.
  intros Hp. unfold loop_body, loop_step.
  destruct (active_lasers st) as [|laser queue]; [done|].
  destruct (_step_and_collide _ _ _ _ _) as [[new_x new_y] out_dirs].
  assert (p ∈ ({[(new_x, new_y)]} ∪
               (if records_start b (iteration st + 1) laser
                then {[(x laser, y laser)]} ∪ hit_points st
                else hit_points st) : gset (Z * Z))).
  { apply elem_of_union_r. destruct (records_start _ _ _); [|done].
    by apply elem_of_union_r. }
  by destruct (off_board b new_x new_y).
Qed.

Lemma while_loop_hits b fuel : ∀ st p,
  p ∈ hit_points st → p ∈ hit_points (while_loop fuel b st).
Proof.
  induction fuel as [|fuel IH]; intros st p Hp; simpl; [done|].
  destruct (loop_cond st); [|done]. by apply IH, loop_body_hits.
Qed.

(** The start of a second seed laser that is not at the position of the
    first one is always recorded, whatever the beams do. *)
Lemma second_seed_start_in_hits b l0 l1 rest :
  lasers b = l0 :: l1 :: rest →
  (x l1, y l1) ≠ (x l0, y l0) →
  (x l1, y l1) ∈ simulate_board b.
Proof.
  intros Hls Hpos. unfold simulate_board.
  destruct (Z.to_nat max_iterations) as [|[|fuel]] eqn:Hfuel;
    [unfold max_iterations in Hfuel; lia..|].
  set (st1 := loop_body b (init_state b)).
  assert (Hq1 : active_lasers st1
                = ((l1 :: rest) ++ (loop_step b (init_state b)).2)%list).
  { apply (loop_body_queue b (init_state b) l0). exact Hls. }
  assert (Hc0 : loop_cond (init_state b) = true).
  { unfold loop_cond. cbn [init_state active_lasers iteration]. by rewrite Hls. }
  assert (Hit1 : iteration st1 = 1).
  { unfold st1. by rewrite loop_body_iteration. }
  assert (Hc1 : loop_cond st1 = true).
  { unfold loop_cond. by rewrite Hq1, Hit1. }
  cbn [while_loop]. rewrite Hc0. fold st1. rewrite Hc1.
  apply while_loop_hits.
  assert (Hrec : records_start b (iteration st1 + 1) l1 = true).
  { unfold records_start. rewrite Hls, Hit1. cbn [length].
    apply orb_true_iff. right. apply negb_true_iff, bool_decide_eq_false. exact Hpos. }
  unfold loop_body, loop_step. rewrite Hq1. cbn [app]. rewrite Hrec.
  destruct (_step_and_collide b (x l1) (y l1) (vx l1) (vy l1))
    as [[new_x new_y] out_dirs].
  assert (Hin : (x l1, y l1) ∈ ({[(new_x, new_y)]} ∪ ({[(x l1, y l1)]} ∪ hit_points st1)
                                 : gset (Z * Z))).
  { apply elem_of_union_r, elem_of_union_l. by apply elem_of_singleton. }
  by destruct (off_board b new_x new_y).
Qed.

Example two_lasers_from_puzzle :
  from_bffspec two_lasers_spec = Ok two_lasers.
Proof. vm_compute. reflexivity. Qed.

(** C4. With two seed lasers at different positions the start of the second
    one is put into the visited set when it is dequeued, although no beam
    steps onto it: the same two lasers listed in the other order give the
    same beams but the other start point. *)
Theorem second_seed_start_recorded :
  ((0, 3) ∈ simulate_board two_lasers) ∧
  ((0, 1) ∉ simulate_board two_lasers) ∧
  ((0, 1) ∈ simulate_board two_lasers_swapped) ∧
  ((0, 3) ∉ simulate_board two_lasers_swapped).
Proof.
  repeat split; by_evaluation.
Qed.

(** *** Board construction and laser directions *)

Lemma from_bffspec_lasers spec b :
  from_bffspec spec = Ok b → lasers b = spec_lasers spec.
Proof.
  unfold from_bffspec. destruct (convert_rows _ _ _); simpl; [|discriminate].
  by intros [= <-].
Qed.

(** C9 (as the code has it). Board construction never looks at the lasers:
    when it succeeds on a puzzle it succeeds on the same puzzle with any
    other laser list, a laser of direction (0, 0) included, and stores that
    list unchanged. *)
Theorem from_bffspec_ignores_lasers (spec : BFFSpec) (b : Board) (ls : list Laser) :
  from_bffspec spec = Ok b →
  from_bffspec (mkBFFSpec (grid_tokens spec) (spec_free_blocks spec) ls (spec_points spec))
  = Ok (mkBoard (grid b) (fixed_blocks b) (free_blocks b) ls (points b)).
Proof.
  unfold from_bffspec. simpl.
  destruct (convert_rows _ _ _); simpl; [|discriminate].
  by intros [= <-].
Qed.

Lemma from_bffspec_ignores_lasers_witness :
  from_bffspec
    (mkBFFSpec (grid_tokens zero_dir_spec) (spec_free_blocks zero_dir_spec)
               [mkLaser 0 1 0 0; mkLaser 2 7 0 0] (spec_points zero_dir_spec))
  = Ok (mkBoard (grid zero_dir_board) (fixed_blocks zero_dir_board)
                (free_blocks zero_dir_board) [mkLaser 0 1 0 0; mkLaser 2 7 0 0]
                (points zero_dir_board)).
Proof.
  apply (from_bffspec_ignores_lasers zero_dir_spec zero_dir_board).
  vm_compute. reflexivity.
Defined.

(** The parser builds the laser from the four integers of the line, whatever
    they are. *)
Lemma parse_laser_line_any_direction ln tag fx fy fvx fvy px py pvx pvy :
  fields ln = [tag; fx; fy; fvx; fvy] →
  tag = "L" ∨ tag = "l" →
  parse_int fx = Some px → parse_int fy = Some py →
  parse_int fvx = Some pvx → parse_int fvy = Some pvy →
  parse_laser_line ln = Some (mkLaser px py pvx pvy).
Proof.
  intros Hf Htag Hx Hy Hvx Hvy. unfold parse_laser_line.
  rewrite Hf, Hx, Hy, Hvx, Hvy. by destruct Htag as [-> | ->].
Qed.

(** The puzzle line [L 2 7 0 0] is parsed into a laser of direction (0, 0),
    the board is built with it, and the simulation runs on that board. *)
Lemma zero_direction_laser_accepted :
  parse_laser_line "L 2 7 0 0" = Some (mkLaser 2 7 0 0) ∧
  from_bffspec zero_dir_spec = Ok zero_dir_board ∧
  mkLaser 2 7 0 0 ∈ lasers zero_dir_board ∧
  simulate_board zero_dir_board = {[(2, 7)]}.
Proof.
  repeat split; try (vm_compute; reflexivity).
  apply list_elem_of_here.
Qed.

(** *** Slot ordering *)

Section StableSort.
Context {A K : Type} (ltb : K → K → bool) (key : A → K).
Hypothesis ltb_asym : ∀ k1 k2, ltb k1 k2 = true → ltb k2 k1 = false.
Hypothesis ltb_negtrans :
  ∀ k1 k2 k3, ltb k2 k1 = false → ltb k3 k2 = false → ltb k3 k1 = false.

Lemma insert_by_Permutation a l : insert_by ltb key a l ≡ₚ a :: l.
Proof using Type.
  induction l as [|b l IH]; simpl; [done|].
  destruct (ltb (key b) (key a)); [|done].
  rewrite IH. apply perm_swap.
Qed.

Lemma sorted_Permutation l : sorted ltb key l ≡ₚ l.
Proof using Type.
  induction l as [|a l IH]; simpl; [done|].
  unfold sorted in IH. by rewrite insert_by_Permutation, IH.
Qed.

Lemma refines_trans_key R a b c :
  ltb (key b) (key a) = false → refines ltb key R b c → ltb (key c) (key a) = false.
Proof using ltb_asym ltb_negtrans.
  intros Hab [Hbc|[Hbc _]]; eauto.
Qed.

Lemma insert_by_sorted (R : A → A → Prop) a l :
  Forall (R a) l →
  StronglySorted (refines ltb key R) l →
  StronglySorted (refines ltb key R) (insert_by ltb key a l).
Proof using ltb_asym ltb_negtrans.
  induction l as [|b l IH]; intros Ha Hs; simpl.
  { repeat constructor. }
  apply Forall_cons in Ha as [Rab Ha].
  apply StronglySorted_inv in Hs as [Hs Hb].
  destruct (ltb (key b) (key a)) eqn:Hba.
  - constructor; [by apply IH|].
    rewrite insert_by_Permutation. constructor; [by left|exact Hb].
  - constructor; [by constructor|].
    constructor; [by right|].
    rewrite Forall_forall in Ha, Hb |- *. intros c Hc.
    right. split; [|by apply Ha].
    eapply refines_trans_key; [exact Hba|by apply Hb].
Qed.

(** Stability, in the form used below. *)
Lemma sorted_stable (R : A → A → Prop) l :
  StronglySorted R l → StronglySorted (refines ltb key R) (sorted ltb key l).
Proof using ltb_asym ltb_negtrans.
  induction 1 as [|a l Hs IH Ha]; simpl; [constructor|].
  apply insert_by_sorted; [|exact IH].
  fold (sorted ltb key l). by rewrite sorted_Permutation.
Qed.
End StableSort.

Lemma StronglySorted_any {A} (l : list A) : StronglySorted (fun _ _ => True) l.
Proof.
  induction l; constructor; [done|]. by apply Forall_forall.
Qed.

Lemma StronglySorted_weaken {A} (R R' : A → A → Prop) l :
  (∀ a b, R a b → R' a b) → StronglySorted R l → StronglySorted R' l.
Proof.
  intros Himp. induction 1 as [|a l Hs IH Ha]; constructor; [done|].
  eapply Forall_impl; [exact Ha|]. apply Himp.
Qed.

Lemma key3_ltb_spec a1 b1 c1 a2 b2 c2 :
  key3_ltb (a1, b1, c1) (a2, b2, c2) = true
  ↔ a1 < a2 ∨ (a1 = a2 ∧ (b1 < b2 ∨ (b1 = b2 ∧ c1 < c2))).
Proof.
  unfold key3_ltb.
  rewrite !orb_true_iff, !andb_true_iff, !orb_true_iff, !andb_true_iff,
    !Z.ltb_lt, !Z.eqb_eq.
  tauto.
Qed.

Lemma key3_ltb_false a1 b1 c1 a2 b2 c2 :
  key3_ltb (a1, b1, c1) (a2, b2, c2) = false
  ↔ a2 < a1 ∨ (a2 = a1 ∧ (b2 < b1 ∨ (b2 = b1 ∧ c2 ≤ c1))).
Proof.
  rewrite <- not_true_iff_false, key3_ltb_spec. lia.
Qed.

Lemma key3_ltb_asym k1 k2 : key3_ltb k1 k2 = true → key3_ltb k2 k1 = false.
Proof.
  destruct k1 as [[a1 b1] c1], k2 as [[a2 b2] c2].
  rewrite key3_ltb_spec, key3_ltb_false. lia.
Qed.

Lemma key3_ltb_negtrans k1 k2 k3 :
  key3_ltb k2 k1 = false → key3_ltb k3 k2 = false → key3_ltb k3 k1 = false.
Proof.
  destruct k1 as [[a1 b1] c1], k2 as [[a2 b2] c2], k3 as [[a3 b3] c3].
  rewrite !key3_ltb_false. lia.
Qed.

Lemma hot_key_le hot p q :
  key3_ltb (hot_key hot q) (hot_key hot p) = false → hot_first_le hot p q.
Proof.
  unfold hot_key, hot_first_le. rewrite key3_ltb_false.
  destruct (bool_decide_reflect (p ∈ hot)), (bool_decide_reflect (q ∈ hot));
    simpl; intros H; [right|left|exfalso|right]; try (split; [tauto|lia]); try lia.
  done.
Qed.

(** The hot-first sort on its own does what its key says. *)
Lemma sort_slots_by_laser_proximity_spec b slots out :
  _sort_slots_by_laser_proximity b slots = Ok out →
  ∃ hot, _hot_slots_by_empty_trace b = Ok hot ∧ slots ≡ₚ out ∧
         StronglySorted (hot_first_le hot) out.
Proof.
  unfold _sort_slots_by_laser_proximity.
  destruct (_hot_slots_by_empty_trace b) as [hot|e]; simpl; [|discriminate].
  intros [= <-]. exists hot. split; [done|]. split.
  - by rewrite sorted_Permutation.
  - eapply StronglySorted_weaken;
      [|apply (sorted_stable key3_ltb (hot_key hot) key3_ltb_asym key3_ltb_negtrans),
          StronglySorted_any].
    intros p q [H|[H _]]; apply hot_key_le; [by apply key3_ltb_asym|done].
Qed.

(** C5 (as the code has it). The result of [_sort_slots_target_first] is a
    permutation of the slots given, in ascending order of the Manhattan
    distance from the cell centre (2c+1, 2r+1) to the nearest target; cells
    at the same distance are hot-first, then by row and column.  The target
    distance is the primary key and the hot-first order breaks its ties. *)
Theorem sort_slots_target_first_spec (b : Board) (slots out : list (Z * Z)) :
  _sort_slots_target_first b slots = Ok out →
  ∃ hot, _hot_slots_by_empty_trace b = Ok hot ∧ slots ≡ₚ out ∧
         StronglySorted (target_first_le (points b) hot) out.
Proof.
  unfold _sort_slots_target_first.
  destruct (_sort_slots_by_laser_proximity b slots) as [base_sorted|e] eqn:Hbase;
    simpl; [|discriminate].
  intros [= <-].
  apply sort_slots_by_laser_proximity_spec in Hbase as (hot & Hhot & Hperm & Hsorted).
  exists hot. split; [done|]. split.
  - by rewrite sorted_Permutation.
  - eapply StronglySorted_weaken;
      [|apply (sorted_stable Z.ltb (dist_to_targets (points b))), Hsorted].
    + intros p q [H|[H Hpq]]; unfold target_first_le.
      * left. by apply Z.ltb_lt.
      * apply Z.ltb_ge in H.
        destruct (Z.eq_dec (dist_to_targets (points b) p) (dist_to_targets (points b) q));
          [by right|left; lia].
    + intros k1 k2. rewrite Z.ltb_lt, Z.ltb_ge. lia.
    + intros k1 k2 k3. rewrite !Z.ltb_ge. lia.
Qed.

Lemma sort_slots_target_first_spec_witness :
  ∃ hot, _hot_slots_by_empty_trace column_board = Ok hot ∧
         column_slots ≡ₚ [(2, 0); (1, 0); (0, 0)] ∧
         StronglySorted (target_first_le (points column_board) hot)
                        [(2, 0); (1, 0); (0, 0)].
Proof.
  apply (sort_slots_target_first_spec column_board column_slots [(2, 0); (1, 0); (0, 0)]).
  vm_compute. reflexivity.
Defined.

(** On [column_board] the laser crosses rows 0 and 1 only, the target is the
    centre of the cell of row 2, and that cold cell comes first: the order
    returned is not hot-first. *)
Lemma target_first_not_hot_first :
  _hot_slots_by_empty_trace column_board = Ok column_hot ∧
  _sort_slots_target_first column_board column_slots = Ok [(2, 0); (1, 0); (0, 0)] ∧
  ¬ hot_before_cold column_hot [(2, 0); (1, 0); (0, 0)].
Proof.
  split; [by_evaluation|]. split; [by_evaluation|].
  intros Hclaim.
  assert (Hcold : (2, 0) ∉ column_hot) by by_evaluation.
  apply Hcold, (Hclaim 0%nat 1%nat (2, 0) (1, 0)); [done|done|lia|by_evaluation].
Qed.

(** * Further properties of the code *)

(** ** board.py: placing and removing blocks *)

Lemma is_placeable_true b r c :
  is_placeable b r c = Ok true ↔
  in_bounds b r c = true ∧ fixed_blocks b !! (r, c) = None ∧ grid_at (grid b) r c = Some "o".
Proof.
  unfold is_placeable.
  destruct (in_bounds b r c); simpl; [|split; [discriminate|by intros [? _]]].
  destruct (fixed_blocks b !! (r, c)) as [blk|] eqn:Hfix.
  { rewrite bool_decide_eq_true_2 by eauto. split; [discriminate|by intros (_ & ? & _)]. }
  rewrite bool_decide_eq_false_2 by (by intros [? ?]).
  destruct (grid_at (grid b) r c) as [tok|]; [|split; [discriminate|by intros (_ & _ & ?)]].
  split.
  - intros [= Htok]. apply String.eqb_eq in Htok as ->. done.
  - intros (_ & _ & [= ->]). done.
Qed.

Lemma place_block_ok b r c k b' :
  place_block b r c k = Ok b' ↔
  is_placeable b r c = Ok true ∧
  b' = mkBoard (grid b) (<[(r, c) := mkBlock k r c]> (fixed_blocks b))
               (free_blocks b) (lasers b) (points b).
Proof.
  unfold place_block. destruct (is_placeable b r c) as [[]|e]; simpl.
  - split; [by intros [= <-]|by intros [_ ->]].
  - split; [discriminate|by intros [[=] _]].
  - split; [discriminate|by intros [[=] _]].
Qed.

Lemma Board_eta b :
  mkBoard (grid b) (fixed_blocks b) (free_blocks b) (lasers b) (points b) = b.
Proof. by destruct b. Qed.

(** X1. A block just placed is the one found at that cell, and removing it
    gives back the board as it was. *)
Theorem place_then_remove (b b' : Board) (r c : Z) (k : BlockType) :
  place_block b r c k = Ok b' →
  get_block_at_position b' r c = Some (mkBlock k r c) ∧ remove_block b' r c = b.
Proof.
  intros [Hok ->]%place_block_ok.
  apply is_placeable_true in Hok as (Hin & Hfree & _).
  unfold get_block_at_position, remove_block, in_bounds, nrows, ncols in *. simpl.
  rewrite Hin, lookup_insert_eq. split; [done|].
  rewrite delete_insert_id by done. apply Board_eta.
Qed.

Lemma place_then_remove_witness :
  get_block_at_position slash_board_solved 0 0 = Some (mkBlock REFLECT 0 0) ∧
  remove_block slash_board_solved 0 0 = slash_board.
Proof.
  apply (place_then_remove slash_board slash_board_solved 0 0 REFLECT).
  vm_compute. reflexivity.
Defined.

(** X2. A cell that has received a block is no longer placeable: a second
    [place_block] on it raises ValueError, whatever the kind. *)
Theorem place_block_twice_fails (b b' : Board) (r c : Z) (k k' : BlockType) :
  place_block b r c k = Ok b' →
  is_placeable b' r c = Ok false ∧ place_block b' r c k' = Raise ValueError.
Proof.
  intros [Hok ->]%place_block_ok.
  apply is_placeable_true in Hok as (Hin & _ & _).
  assert (Hno : is_placeable
                  (mkBoard (grid b) (<[(r, c) := mkBlock k r c]> (fixed_blocks b))
                           (free_blocks b) (lasers b) (points b)) r c = Ok false).
  { unfold is_placeable, in_bounds, nrows, ncols in *. simpl. rewrite Hin. simpl.
    rewrite lookup_insert_eq. by rewrite bool_decide_eq_true_2 by eauto. }
  split; [exact Hno|]. unfold place_block. by rewrite Hno.
Qed.

Lemma place_block_twice_fails_witness :
  is_placeable slash_board_solved 0 0 = Ok false ∧
  place_block slash_board_solved 0 0 OPAQUE = Raise ValueError.
Proof.
  apply (place_block_twice_fails slash_board slash_board_solved 0 0 REFLECT OPAQUE).
  vm_compute. reflexivity.
Defined.

Lemma place_block_other_cell b r c k b' r' c' :
  place_block b r c k = Ok b' → (r', c') ≠ (r, c) →
  is_placeable b' r' c' = is_placeable b r' c' ∧
  _block_ch_at b' r' c' = _block_ch_at b r' c'.
Proof.
  intros [_ ->]%place_block_ok Hne.
  unfold is_placeable, _block_ch_at, in_bounds, nrows, ncols. simpl.
  by rewrite lookup_insert_ne.
Qed.

(** X3. Placing a block changes nothing for the other cells: they are
    placeable exactly as before and the simulator finds the same marker
    there. *)
Theorem place_block_frame (b b' : Board) (r c r' c' : Z) (k : BlockType) :
  place_block b r c k = Ok b' → (r', c') ≠ (r, c) →
  is_placeable b' r' c' = is_placeable b r' c' ∧
  _block_ch_at b' r' c' = _block_ch_at b r' c' ∧
  get_block_at_position b' r' c' = get_block_at_position b r' c'.
Proof.
  intros Hplace Hne.
  destruct (place_block_other_cell b r c k b' r' c' Hplace Hne) as [H1 H2].
  split; [exact H1|]. split; [exact H2|].
  apply place_block_ok in Hplace as [_ ->].
  unfold get_block_at_position, in_bounds, nrows, ncols. simpl.
  by rewrite lookup_insert_ne.
Qed.

Lemma place_block_frame_witness :
  is_placeable slash_board_solved 1 1 = is_placeable slash_board 1 1 ∧
  _block_ch_at slash_board_solved 1 1 = _block_ch_at slash_board 1 1 ∧
  get_block_at_position slash_board_solved 1 1 = get_block_at_position slash_board 1 1.
Proof.
  apply (place_block_frame slash_board slash_board_solved 0 0 1 1 REFLECT).
  - vm_compute. reflexivity.
  - discriminate.
Defined.

(** ** solver.py: the placeable cells *)

Lemma py_index_nonneg {A} (l : list A) i :
  0 ≤ i → py_index l i = l !! Z.to_nat i.
Proof. intros Hi. unfold py_index. by destruct (Z.leb_spec 0 i); [|lia]. Qed.

Lemma grid_at_in_bounds b r c :
  rectangular b → in_bounds b r c = true → is_Some (grid_at (grid b) r c).
Proof.
  intros Hrect (Hr & Hc)%in_bounds_spec. unfold grid_at, nrows in *.
  rewrite py_index_nonneg by lia.
  destruct (lookup_lt_is_Some_2 (grid b) (Z.to_nat r)) as [row Hrow]; [lia|].
  rewrite Hrow. simpl. rewrite py_index_nonneg by lia.
  apply lookup_lt_is_Some_2.
  unfold rectangular in Hrect. rewrite Forall_forall in Hrect.
  specialize (Hrect row (list_elem_of_lookup_2 _ _ _ Hrow)). lia.
Qed.

Lemma is_placeable_rectangular b r c :
  rectangular b → ∃ ok, is_placeable b r c = Ok ok.
Proof.
  intros Hrect. unfold is_placeable.
  destruct (in_bounds b r c) eqn:Hin; simpl; [|eauto].
  destruct (bool_decide _); [eauto|].
  destruct (grid_at_in_bounds b r c Hrect Hin) as [tok ->]. eauto.
Qed.

Lemma is_placeable_out_of_bounds b r c :
  in_bounds b r c = false → is_placeable b r c = Ok false.
Proof. intros Hin. unfold is_placeable. by rewrite Hin. Qed.

Lemma filter_placeable_spec b cells : ∀ ps,
  filter_placeable b cells = Ok ps →
  ps `sublist_of` cells ∧
  ∀ p, p ∈ ps ↔ p ∈ cells ∧ is_placeable b p.1 p.2 = Ok true.
Proof.
  induction cells as [|[r c] rest IH]; intros ps; simpl.
  { intros [= <-]. split; [done|]. intros p. split; [by intros ?%elem_of_nil|].
    by intros [?%elem_of_nil _]. }
  destruct (is_placeable b r c) as [ok|e] eqn:Hok; simpl; [|discriminate].
  destruct (filter_placeable b rest) as [ps'|e]; simpl; [|discriminate].
  destruct (IH ps' eq_refl) as [Hsub Hmem].
  intros [= <-]. destruct ok.
  - split; [by constructor|]. intros p. rewrite !elem_of_cons, Hmem. split.
    + intros [->|[? ?]]; eauto.
    + intros [[->|?] ?]; eauto.
  - split; [by constructor|]. intros p. rewrite elem_of_cons, Hmem. split.
    + intros [? ?]; eauto.
    + intros [[->|?] Hp]; [|done]. simpl in Hp. congruence.
Qed.

Lemma filter_placeable_ok b cells :
  (∀ p, p ∈ cells → ∃ ok, is_placeable b p.1 p.2 = Ok ok) →
  ∃ ps, filter_placeable b cells = Ok ps.
Proof.
  induction cells as [|[r c] rest IH]; intros Hall; simpl; [eauto|].
  destruct (Hall (r, c)) as [ok Hok]; [left|]. simpl in Hok. rewrite Hok. simpl.
  destruct IH as [ps ->]; [intros p Hp; apply Hall; by right|]. simpl. eauto.
Qed.

Lemma elem_of_all_cells b r c : (r, c) ∈ all_cells b ↔ in_bounds b r c = true.
Proof.
  unfold all_cells. rewrite in_bounds_spec, list_elem_of_bind. split.
  - intros (r' & (c' & Hrc & Hc)%list_elem_of_bind & Hr).
    apply list_elem_of_singleton in Hrc as [= -> ->].
    apply elem_of_seqZ in Hc, Hr. lia.
  - intros [Hr Hc]. exists r. split; [|apply elem_of_seqZ; lia].
    apply list_elem_of_bind. exists c. split; [by apply list_elem_of_singleton|].
    apply elem_of_seqZ. lia.
Qed.

Lemma NoDup_all_cells b : NoDup (all_cells b).
Proof.
  unfold all_cells. apply NoDup_bind; [| |apply NoDup_seqZ].
  - intros r1 r2 p _ _ (c1 & Hp1 & _)%list_elem_of_bind (c2 & Hp2 & _)%list_elem_of_bind.
    apply list_elem_of_singleton in Hp1, Hp2. congruence.
  - intros r _. apply NoDup_bind; [| |apply NoDup_seqZ].
    + intros c1 c2 p _ _ Hp1 Hp2. apply list_elem_of_singleton in Hp1, Hp2. congruence.
    + intros c _. apply NoDup_singleton.
Qed.

Lemma get_placeable_positions_facts b ps :
  get_placeable_positions b = Ok ps →
  NoDup ps ∧ ∀ r c, (r, c) ∈ ps ↔ is_placeable b r c = Ok true.
Proof.
  intros [Hsub Hmem]%filter_placeable_spec. split.
  - eapply sublist_NoDup; [apply NoDup_all_cells|exact Hsub].
  - intros r c. rewrite Hmem, elem_of_all_cells. simpl. split; [by intros [_ ?]|].
    intros Hok. split; [|done]. by apply is_placeable_true in Hok as [? _].
Qed.

(** X4. The list returned by [get_placeable_positions] holds every placeable
    cell of the board exactly once, and no other cell. *)
Theorem get_placeable_positions_spec (b : Board) (ps : list (Z * Z)) :
  get_placeable_positions b = Ok ps →
  NoDup ps ∧
  ∀ r c, (r, c) ∈ ps ↔
    in_bounds b r c = true ∧ fixed_blocks b !! (r, c) = None
    ∧ grid_at (grid b) r c = Some "o".
Proof.
  intros [Hnd Hmem]%get_placeable_positions_facts. split; [exact Hnd|].
  intros r c. by rewrite Hmem, is_placeable_true.
Qed.

Lemma get_placeable_positions_spec_witness :
  NoDup [(0, 1); (1, 0); (1, 1)] ∧
  ∀ r c, (r, c) ∈ [(0, 1); (1, 0); (1, 1)] ↔
    in_bounds fixed_mirror_board r c = true
    ∧ fixed_blocks fixed_mirror_board !! (r, c) = None
    ∧ grid_at (grid fixed_mirror_board) r c = Some "o".
Proof.
  apply (get_placeable_positions_spec fixed_mirror_board).
  vm_compute. reflexivity.
Defined.

Lemma get_placeable_positions_rectangular b :
  rectangular b → ∃ ps, get_placeable_positions b = Ok ps.
Proof.
  intros Hrect. apply filter_placeable_ok.
  intros [r c] _. by apply is_placeable_rectangular.
Qed.

(** ** solver.py: the enumerations *)

Lemma combinations_spec {A} (l : list A) : ∀ k l',
  l' ∈ combinations l k ↔ l' `sublist_of` l ∧ length l' = k.
Proof.
  induction l as [|a l IH]; intros [|k] l'; simpl.
  - rewrite list_elem_of_singleton, sublist_nil_r. split; [by intros ->|by intros [-> _]].
  - rewrite sublist_nil_r. split; [by intros ?%elem_of_nil|by intros [-> ?]].
  - rewrite list_elem_of_singleton. split; [intros ->; split; [apply sublist_nil_l|done]|].
    intros [_ Hlen]. by destruct l'.
  - rewrite elem_of_app, list_elem_of_fmap, sublist_cons_r. split.
    + intros [(t & -> & [Hsub Hlen]%IH)|[Hsub Hlen]%IH].
      * split; [right; eauto|simpl; lia].
      * split; [by left|done].
    + intros [[Hsub|(t & -> & Hsub)] Hlen].
      * right. by apply IH.
      * left. exists t. split; [done|]. apply IH. split; [done|]. simpl in Hlen. lia.
Qed.

Lemma selections_spec {A} (l : list A) a rest :
  (a, rest) ∈ selections l → l ≡ₚ a :: rest.
Proof.
  revert a rest. induction l as [|b l IH]; intros a rest; simpl.
  { by intros ?%elem_of_nil. }
  intros [[= -> ->]|(p & [= -> ->] & Hp)%list_elem_of_fmap]%elem_of_cons; [done|].
  destruct p as [a' rest']. simpl. rewrite (IH a' rest' Hp). apply perm_swap.
Qed.

Lemma selections_complete {A} (l : list A) a :
  a ∈ l → ∃ rest, (a, rest) ∈ selections l.
Proof.
  induction l as [|b l IH]; simpl; [by intros ?%elem_of_nil|].
  intros [->|Ha]%elem_of_cons; [exists l; left|].
  destruct (IH Ha) as [rest Hrest]. exists (b :: rest). right.
  apply list_elem_of_fmap. by exists (a, rest).
Qed.

Lemma list_elem_of_flat_map {A B} (f : A → list B) (l : list A) (y : B) :
  y ∈ flat_map f l ↔ ∃ a, y ∈ f a ∧ a ∈ l.
Proof.
  rewrite list_elem_of_In, in_flat_map. split.
  - intros (a & Ha & Hy). exists a. by rewrite !list_elem_of_In.
  - intros (a & Hy & Ha). exists a. by rewrite <- !list_elem_of_In.
Qed.

Lemma permutations_n_spec {A} (n : nat) : ∀ (l p : list A),
  length l = n → (p ∈ permutations_n n l ↔ p ≡ₚ l).
Proof.
  induction n as [|n IH]; intros l p Hlen; simpl.
  { destruct l; [|done]. rewrite list_elem_of_singleton. split; [by intros ->|].
    by intros ?%Permutation_nil_r. }
  rewrite list_elem_of_flat_map. split.
  - intros ([a rest] & (t & -> & Ht)%list_elem_of_fmap & Hsel).
    pose proof (selections_spec l a rest Hsel) as Hperm. simpl in *.
    apply IH in Ht.
    + by rewrite Hperm, Ht.
    + apply Permutation_length in Hperm. simpl in Hperm. lia.
  - intros Hp. destruct p as [|a t].
    { apply Permutation_length in Hp. simpl in Hp. lia. }
    destruct (selections_complete l a) as [rest Hsel].
    { rewrite <- Hp. left. }
    exists (a, rest). split; [|done]. simpl.
    apply list_elem_of_fmap. exists t. split; [done|].
    pose proof (selections_spec l a rest Hsel) as Hperm.
    apply IH.
    + apply Permutation_length in Hperm. simpl in Hperm. lia.
    + rewrite Hperm in Hp. by apply Permutation_cons_inv in Hp.
Qed.

Lemma permutations_spec {A} (l p : list A) : p ∈ permutations l ↔ p ≡ₚ l.
Proof. by apply permutations_n_spec. Qed.

Lemma unique_first_from_spec `{EqDecision A} (l : list A) : ∀ seen,
  NoDup (unique_first_from seen l) ∧
  ∀ a, a ∈ unique_first_from seen l ↔ a ∈ l ∧ a ∉ seen.
Proof.
  induction l as [|b l IH]; intros seen; simpl.
  { split; [constructor|]. intros a. split; [by intros ?%elem_of_nil|].
    by intros [?%elem_of_nil _]. }
  destruct (bool_decide_reflect (b ∈ seen)) as [Hb|Hb].
  - destruct (IH seen) as [Hnd Hmem]. split; [done|].
    intros a. rewrite Hmem, elem_of_cons. split; [by intros [? ?]; auto|].
    intros [[->|?] ?]; done.
  - destruct (IH (b :: seen)) as [Hnd Hmem]. split.
    + constructor; [|done]. rewrite Hmem, elem_of_cons. intros [_ Hn]. apply Hn. by left.
    + intros a. rewrite !elem_of_cons, Hmem, elem_of_cons. split.
      * intros [->|[? Hn]]; [by auto|]. split; [by right|]. intros ?. apply Hn. by right.
      * intros [[->|Ha] Hn]; [by left|].
        destruct (decide (a = b)) as [->|Hne]; [by left|right].
        split; [done|]. by intros [?|?].
Qed.

Lemma unique_first_spec `{EqDecision A} (l : list A) :
  NoDup (unique_first l) ∧ ∀ a, a ∈ unique_first l ↔ a ∈ l.
Proof.
  destruct (unique_first_from_spec l []) as [Hnd Hmem]. split; [done|].
  intros a. rewrite Hmem. split; [by intros [? _]|].
  intros Ha. split; [done|]. by intros ?%elem_of_nil.
Qed.

Lemma Forall_eq_replicate {A} (t : A) (l : list A) :
  Forall (fun a => a = t) l → l = replicate (length l) t.
Proof. induction 1 as [|a l -> _ IH]; simpl; [done|]. by rewrite <- IH. Qed.

Lemma generate_unique_permutations_facts (blocks p : list BlockType) :
  NoDup (generate_unique_permutations blocks) ∧
  (p ∈ generate_unique_permutations blocks ↔ p ≡ₚ blocks).
Proof.
  unfold generate_unique_permutations.
  destruct (bool_decide_reflect (length (unique_first blocks) = 1%nat)) as [Hone|_].
  - split; [apply NoDup_singleton|]. rewrite list_elem_of_singleton.
    split; [by intros ->|]. intros Hp.
    destruct (unique_first blocks) as [|t [|]] eqn:Hu; try done.
    assert (Hall : ∀ l : list BlockType, l ≡ₚ blocks → Forall (fun a => a = t) l).
    { intros l Hl. apply Forall_forall. intros a Ha. rewrite Hl in Ha.
      apply (proj2 (unique_first_spec blocks)) in Ha. rewrite Hu in Ha.
      by apply list_elem_of_singleton in Ha. }
    rewrite (Forall_eq_replicate t p (Hall p Hp)).
    rewrite (Forall_eq_replicate t blocks (Hall blocks (reflexivity _))).
    by rewrite (Permutation_length Hp).
  - destruct (unique_first_spec (permutations blocks)) as [Hnd Hmem].
    split; [done|]. by rewrite Hmem, permutations_spec.
Qed.

(** X5. [generate_unique_permutations] yields every distinct arrangement of
    the blocks to place, each exactly once: arrangements that differ only by
    exchanging blocks of the same type are not repeated, and none is lost. *)
Theorem generate_unique_permutations_spec (blocks : list BlockType) :
  NoDup (generate_unique_permutations blocks) ∧
  ∀ p, p ∈ generate_unique_permutations blocks ↔ p ≡ₚ blocks.
Proof.
  split; [apply (generate_unique_permutations_facts blocks [])|].
  intros p. apply generate_unique_permutations_facts.
Qed.

Lemma product_ad_length n os : os ∈ product_ad n → length os = n.
Proof.
  revert os. induction n as [|n IH]; intros os; simpl.
  { by intros ->%list_elem_of_singleton. }
  rewrite app_nil_r.
  intros [(t & -> & Ht)%list_elem_of_fmap|(t & -> & Ht)%list_elem_of_fmap]%elem_of_app;
    simpl; by rewrite (IH t Ht).
Qed.

(** ** solver.py: the empty-board trace *)

Lemma marks_ok_ret b hot : marks_ok b hot (Ok hot).
Proof. split; [eauto|]. by intros hot' [= <-]. Qed.

Lemma marks_ok_bind (b : Board) (hot : gset (Z * Z)) (m : result (gset (Z * Z)))
  (k : gset (Z * Z) → result (gset (Z * Z))) :
  marks_ok b hot m → (∀ hot1, marks_ok b hot1 (k hot1)) → marks_ok b hot (rbind m k).
Proof.
  intros [Hok Hinv] Hk. split.
  - intros Hrect. destruct (Hok Hrect) as [hot1 ->]. simpl. by apply Hk.
  - intros hot'. destruct m as [hot1|e]; simpl; [|discriminate].
    intros Hrest Hhot. eapply Hk; [exact Hrest|]. by apply Hinv.
Qed.

Lemma marks_ok_if (b : Board) (hot : gset (Z * Z)) (guard : bool)
  (m1 m2 : result (gset (Z * Z))) :
  marks_ok b hot m1 → marks_ok b hot m2 → marks_ok b hot (if guard then m1 else m2).
Proof. by destruct guard. Qed.

Lemma mark_open_facts b r c hot :
  in_bounds b r c = true → marks_ok b hot (mark_open b r c hot).
Proof.
  intros Hin. unfold mark_open. split.
  - intros Hrect. destruct (grid_at_in_bounds b r c Hrect Hin) as [tok ->]. eauto.
  - intros hot'. destruct (grid_at (grid b) r c) as [tok|] eqn:Hg; [|discriminate].
    destruct (String.eqb_spec tok "o") as [->|_]; intros [= <-] Hhot; [|done].
    intros r' c' [[= -> ->]%elem_of_singleton|Hin']%elem_of_union; [done|by apply Hhot].
Qed.

Lemma mark_cells_facts b cells : ∀ hot, marks_ok b hot (mark_cells b cells hot).
Proof.
  induction cells as [|[r c] rest IH]; intros hot; simpl; [apply marks_ok_ret|].
  change ((0 <=? r) && (r <? nrows b) && (0 <=? c) && (c <? ncols b))
    with (in_bounds b r c).
  destruct (in_bounds b r c) eqn:Hin; [|apply IH].
  apply marks_ok_bind; [by apply mark_open_facts|apply IH].
Qed.

Lemma trace_mark_facts b px py dx dy hot :
  marks_ok b hot (trace_mark b px py dx dy hot).
Proof.
  unfold trace_mark. cbv zeta.
  apply marks_ok_bind.
  { apply marks_ok_if; [|apply marks_ok_ret].
    apply marks_ok_if; [apply mark_cells_facts|apply marks_ok_ret]. }
  intros hot1. apply marks_ok_bind.
  { apply marks_ok_if; [|apply marks_ok_ret].
    apply marks_ok_if; [apply mark_cells_facts|apply marks_ok_ret]. }
  intros hot2.
  apply marks_ok_if; [apply mark_cells_facts|apply marks_ok_ret].
Qed.

Lemma trace_loop_facts b dx dy fuel : ∀ px py seen steps hot,
  marks_ok b hot (trace_loop fuel b px py dx dy seen steps hot).
Proof.
  induction fuel as [|fuel IH]; intros px py seen steps hot; simpl;
    [apply marks_ok_ret|].
  apply marks_ok_if; [|apply marks_ok_ret].
  apply marks_ok_bind; [apply trace_mark_facts|]. intros hot1.
  apply marks_ok_if; [apply marks_ok_ret|].
  apply marks_ok_if; [apply marks_ok_ret|apply IH].
Qed.

Lemma trace_lasers_facts b ls : ∀ hot, marks_ok b hot (trace_lasers b ls hot).
Proof.
  induction ls as [|L rest IH]; intros hot; simpl; [apply marks_ok_ret|].
  apply marks_ok_bind; [apply trace_loop_facts|apply IH].
Qed.

Lemma hot_slots_rectangular b :
  rectangular b → ∃ hot, _hot_slots_by_empty_trace b = Ok hot.
Proof. apply trace_lasers_facts. Qed.

(** X6. Every hot slot is a cell of the board that holds 'o': the trace
    never marks a cell outside the grid, a blocked cell or the cell of a
    fixed block. *)
Theorem hot_slots_are_open_cells (b : Board) (hot : gset (Z * Z)) :
  _hot_slots_by_empty_trace b = Ok hot → open_cells_only b hot.
Proof.
  intros Hhot. eapply (proj2 (trace_lasers_facts b (lasers b) ∅)); [exact Hhot|].
  intros r c Hin. by apply not_elem_of_empty in Hin.
Qed.

Lemma hot_slots_are_open_cells_witness : open_cells_only column_board column_hot.
Proof.
  apply (hot_slots_are_open_cells column_board column_hot).
  vm_compute. reflexivity.
Defined.

(** ** solver.py: the drivers never raise on a rectangular board *)

Lemma first_success_ok {C} (candidates : list C) (body : C → result (option Board)) :
  (∀ cand, cand ∈ candidates → ∃ r, body cand = Ok r) →
  ∃ r, first_success candidates body = Ok r.
Proof.
  induction candidates as [|cand rest IH]; intros Hall; simpl; [eauto|].
  destruct (Hall cand) as [[found|] ->]; [left| |]; simpl; [eauto|].
  apply IH. intros cand' Hin. apply Hall. by right.
Qed.

Lemma first_success_none {C} (candidates : list C) (body : C → result (option Board)) :
  first_success candidates body = Ok None →
  ∀ cand, cand ∈ candidates → body cand = Ok None.
Proof.
  induction candidates as [|cand rest IH]; simpl; [by intros _ c ?%elem_of_nil|].
  destruct (body cand) as [[found|]|e] eqn:Hcand; simpl; try discriminate.
  intros Hrest cand' [->|Hin]%elem_of_cons; [done|by apply IH].
Qed.

Lemma place_all_ok cells : ∀ tb perm i,
  NoDup cells →
  (∀ r c, (r, c) ∈ cells → is_placeable tb r c = Ok true) →
  (i + length cells ≤ length perm)%nat →
  ∃ tb', place_all tb cells perm i = Ok tb'.
Proof.
  induction cells as [|[r c] rest IH]; intros tb perm i Hnd Hall Hlen; simpl; [eauto|].
  apply NoDup_cons in Hnd as [Hfresh Hnd]. simpl in Hlen.
  destruct (lookup_lt_is_Some_2 perm i) as [bt ->]; [lia|].
  destruct (place_block tb r c bt) as [tb1|e] eqn:Hplace.
  - simpl. apply IH; [done| |lia].
    intros r' c' Hin.
    destruct (place_block_other_cell tb r c bt tb1 r' c' Hplace) as [-> _].
    + intros [= -> ->]. done.
    + apply Hall. by right.
  - unfold place_block in Hplace. rewrite (Hall r c) in Hplace by left. done.
Qed.

Lemma set_grid_nrows b r c ch : nrows (set_grid b r c ch) = nrows b.
Proof. unfold nrows, set_grid. simpl. by rewrite length_alter. Qed.

Lemma set_grid_ncols b r c ch : ncols (set_grid b r c ch) = ncols b.
Proof.
  unfold ncols, set_grid. simpl.
  destruct (grid b) as [|row0 rows]; [done|].
  destruct (Z.to_nat r); simpl; [by rewrite length_insert|done].
Qed.

Lemma set_grid_in_bounds b r c ch r' c' :
  in_bounds (set_grid b r c ch) r' c' = in_bounds b r' c'.
Proof. unfold in_bounds. by rewrite set_grid_nrows, set_grid_ncols. Qed.

Lemma set_grid_rectangular b r c ch : rectangular b → rectangular (set_grid b r c ch).
Proof.
  unfold rectangular. rewrite set_grid_ncols. simpl.
  rewrite !Forall_lookup. intros Hrect i row.
  destruct (decide (Z.to_nat r = i)) as [<-|Hne].
  - rewrite list_lookup_alter_eq.
    destruct (grid b !! Z.to_nat r) as [row0|] eqn:Hrow; [|done].
    intros [= <-]. rewrite length_insert. by eapply Hrect.
  - rewrite list_lookup_alter_ne by done. apply Hrect.
Qed.

Lemma set_grid_other_cell b r c ch r' c' :
  0 ≤ r → 0 ≤ c → 0 ≤ r' → 0 ≤ c' → (r', c') ≠ (r, c) →
  grid_at (grid (set_grid b r c ch)) r' c' = grid_at (grid b) r' c'.
Proof.
  intros Hr Hc Hr' Hc' Hne. unfold grid_at, set_grid. simpl.
  rewrite !py_index_nonneg by lia.
  destruct (decide (Z.to_nat r = Z.to_nat r')) as [Heq|Hnr].
  - rewrite Heq, list_lookup_alter_eq.
    destruct (grid b !! Z.to_nat r') as [row|]; [|done]. simpl.
    rewrite !py_index_nonneg by lia. apply list_lookup_insert_ne.
    intros Hcc. apply Hne. f_equal; lia.
  - by rewrite list_lookup_alter_ne.
Qed.

Lemma set_grid_this_cell b r c ch tok :
  0 ≤ r → 0 ≤ c → grid_at (grid b) r c = Some tok →
  grid_at (grid (set_grid b r c ch)) r c = Some ch.
Proof.
  intros Hr Hc. unfold grid_at, set_grid. simpl.
  rewrite !py_index_nonneg by lia. rewrite list_lookup_alter_eq.
  destruct (grid b !! Z.to_nat r) as [row|]; [|done]. simpl.
  rewrite !py_index_nonneg by lia. intros Htok.
  apply list_lookup_insert_eq. by eapply lookup_lt_Some.
Qed.

Lemma is_placeable_set_grid b r c ch r' c' :
  in_bounds b r c = true → (r', c') ≠ (r, c) →
  is_placeable b r' c' = Ok true → is_placeable (set_grid b r c ch) r' c' = Ok true.
Proof.
  intros (Hr & Hc)%in_bounds_spec Hne (Hin & Hfree & Hopen)%is_placeable_true.
  apply is_placeable_true. rewrite set_grid_in_bounds.
  split; [done|]. split; [done|].
  apply in_bounds_spec in Hin as [? ?].
  rewrite set_grid_other_cell by (done || lia). done.
Qed.

Lemma place_block_rectangular b r c k b' :
  place_block b r c k = Ok b' → rectangular b → rectangular b'.
Proof. by intros [_ ->]%place_block_ok. Qed.

Lemma orient_map_of_keys (pairs : list ((Z * Z) * string)) : ∀ (m : gmap (Z * Z) string) k,
  k ∈ pairs.*1 ∨ is_Some (m !! k) →
  is_Some (fold_left (fun m p => <[p.1 := p.2]> m) pairs m !! k).
Proof.
  induction pairs as [|[k0 v0] rest IH]; intros m k; simpl.
  { intros [?%elem_of_nil|?]; done. }
  intros Hk. apply IH.
  destruct Hk as [[->|Hk]%elem_of_cons|Hk]; [right|by left|right].
  - rewrite lookup_insert_eq. eauto.
  - apply lookup_insert_is_Some. destruct (decide (k0 = k)); eauto.
Qed.

Lemma place_oriented_ok (placements : list ((Z * Z) * BlockType))
  (orient_map : gmap (Z * Z) string) : ∀ tb,
  NoDup placements.*1 →
  (∀ r c bt, ((r, c), bt) ∈ placements → is_placeable tb r c = Ok true) →
  (∀ r c, ((r, c), REFLECT) ∈ placements → is_Some (orient_map !! (r, c))) →
  ∃ tb', place_oriented tb placements orient_map = Ok tb'.
Proof.
  induction placements as [|[[r c] bt] rest IH]; intros tb Hnd Hall Hkeys; simpl; [eauto|].
  simpl in Hnd. apply NoDup_cons in Hnd as [Hfresh Hnd].
  destruct (place_block tb r c bt) as [tb1|e] eqn:Hplace.
  2:{ unfold place_block in Hplace. rewrite (Hall r c bt) in Hplace by left. done. }
  simpl.
  assert (Hch : ∃ ch, match bt with
                      | REFLECT => match orient_map !! (r, c) with
                                   | Some o => Ok o
                                   | None => Raise KeyError
                                   end
                      | OPAQUE => Ok "b"
                      | REFRACT => Ok "c"
                      end = Ok ch).
  { destruct bt; eauto. destruct (Hkeys r c) as [o ->]; [left|eauto]. }
  destruct Hch as [ch ->]. simpl.
  apply IH; [done| |].
  - intros r' c' bt' Hin.
    assert (Hne : (r', c') ≠ (r, c)).
    { intros [= -> ->]. apply Hfresh. apply list_elem_of_fmap. by exists ((r, c), bt'). }
    apply is_placeable_set_grid; [|done|].
    + pose proof (Hall r c bt (list_elem_of_here _ _)) as (Hin0 & _)%is_placeable_true.
      apply place_block_ok in Hplace as [_ ->]. exact Hin0.
    + destruct (place_block_other_cell tb r c bt tb1 r' c' Hplace Hne) as [-> _].
      eapply Hall. by right.
  - intros r' c' Hin. apply Hkeys. by right.
Qed.

Lemma reflect_positions_of_spec placements rc :
  rc ∈ reflect_positions_of placements ↔ (rc, REFLECT) ∈ placements.
Proof.
  unfold reflect_positions_of. rewrite list_elem_of_In, in_map_iff. split.
  - intros ([rc' bt] & <- & Hin). apply list_elem_of_In, list_elem_of_filter in Hin.
    simpl in *. by destruct Hin as [-> ?].
  - intros Hin. exists (rc, REFLECT). split; [done|].
    apply list_elem_of_In, list_elem_of_filter. done.
Qed.

Lemma try_candidate_ok b cells perm orient :
  NoDup cells →
  (∀ r c, (r, c) ∈ cells → is_placeable b r c = Ok true) →
  length cells = length perm →
  length orient = length (reflect_positions_of (zip cells perm)) →
  ∃ tb, place_oriented b (zip cells perm)
          (orient_map_of (zip (reflect_positions_of (zip cells perm)) orient)) = Ok tb.
Proof.
  intros Hnd Hall Hlen Horient. apply place_oriented_ok.
  - rewrite fst_zip by lia. done.
  - intros r c bt Hin. apply Hall. by eapply elem_of_zip_l.
  - intros r c Hin. apply orient_map_of_keys. left.
    rewrite fst_zip by lia. by apply reflect_positions_of_spec.
Qed.

Lemma sort_slots_target_first_perm b slots :
  rectangular b →
  ∃ out, _sort_slots_target_first b slots = Ok out ∧ out ≡ₚ slots.
Proof.
  intros Hrect. unfold _sort_slots_target_first, _sort_slots_by_laser_proximity.
  destruct (hot_slots_rectangular b Hrect) as [hot ->]. simpl.
  eexists. split; [done|]. by rewrite !sorted_Permutation.
Qed.

Lemma sort_slots_target_first_perm_of b slots out :
  _sort_slots_target_first b slots = Ok out → out ≡ₚ slots.
Proof.
  unfold _sort_slots_target_first, _sort_slots_by_laser_proximity.
  destruct (_hot_slots_by_empty_trace b) as [hot|e]; simpl; [|discriminate].
  intros [= <-]. by rewrite !sorted_Permutation.
Qed.

Lemma solve_never_raises b : rectangular b → ∃ res, solve b = Ok res.
Proof.
  intros Hrect. unfold solve, solve_with.
  destruct (get_placeable_positions_rectangular b Hrect) as [ps Hps]. rewrite Hps. simpl.
  destruct (get_placeable_positions_facts b ps Hps) as [Hnd Hmem].
  destruct (get_blocks_to_place b) as [|bt blocks] eqn:Hblocks; [eauto|].
  apply first_success_ok. intros cells [Hsub Hlen]%combinations_spec.
  apply first_success_ok. intros perm Hperm.
  apply (proj2 (unique_first_spec _)), permutations_spec in Hperm.
  destruct (place_all_ok cells b perm 0) as [tb ->]; simpl; [| | |eauto].
  - by eapply sublist_NoDup.
  - intros r c Hin. apply Hmem. by eapply elem_of_sublist.
  - rewrite (Permutation_length Hperm). lia.
Qed.

Lemma solve_optimized_never_raises b use_hot_slots :
  rectangular b → ∃ res, solve_optimized use_hot_slots b = Ok res.
Proof.
  intros Hrect. unfold solve_optimized.
  destruct (get_placeable_positions_rectangular b Hrect) as [ps Hps]. rewrite Hps. simpl.
  destruct (get_placeable_positions_facts b ps Hps) as [Hnd Hmem].
  destruct (get_blocks_to_place b) as [|bt blocks] eqn:Hblocks; [eauto|].
  assert (Hpos : ∃ positions,
             (if use_hot_slots
              then rbind (_sort_slots_target_first b ps) (fun sorted_positions =>
                     rbind (_hot_slots_by_empty_trace b) (fun _ => Ok sorted_positions))
              else Ok ps) = Ok positions ∧ positions ≡ₚ ps).
  { destruct use_hot_slots; [|eauto].
    destruct (sort_slots_target_first_perm b ps Hrect) as (out & -> & Hperm). simpl.
    destruct (hot_slots_rectangular b Hrect) as [hot ->]. simpl. eauto. }
  destruct Hpos as (positions & -> & Hperm). simpl.
  destruct (_ <? _)%nat; [eauto|].
  apply first_success_ok. intros cells [Hsub Hlen]%combinations_spec.
  apply first_success_ok.
  intros perm Hp%(proj2 (generate_unique_permutations_facts (bt :: blocks) perm)).
  apply first_success_ok. intros orient Horient%product_ad_length.
  unfold try_candidate.
  destruct (try_candidate_ok b cells perm orient) as [tb ->]; [| | |done|eauto].
  - eapply sublist_NoDup; [|exact Hsub]. by rewrite Hperm.
  - intros r c Hin. apply Hmem. rewrite <- Hperm. by eapply elem_of_sublist.
  - by rewrite (Permutation_length Hp).
Qed.

(** X7. On a rectangular board neither driver lets an exception escape: no
    IndexError from the grid, no ValueError from a placement, no KeyError
    from the orientation map; each returns a board or None. *)
Theorem solvers_never_raise (b : Board) (use_hot_slots : bool) :
  rectangular b →
  (∃ res, solve b = Ok res) ∧ (∃ res, solve_optimized use_hot_slots b = Ok res).
Proof.
  intros Hrect. split; [by apply solve_never_raises|by apply solve_optimized_never_raises].
Qed.

Lemma solvers_never_raise_witness :
  (∃ res, solve backslash_board = Ok res) ∧
  (∃ res, solve_optimized true backslash_board = Ok res).
Proof.
  apply (solvers_never_raise backslash_board true).
  repeat constructor.
Defined.

(** On a ragged grid the first thing either driver does already fails. *)
Example ragged_board_raises :
  solve (mkBoard [["o"; "o"]; ["o"]] ∅ one_mirror [] ∅) = Raise IndexError ∧
  solve_optimized true (mkBoard [["o"; "o"]; ["o"]] ∅ one_mirror [] ∅) = Raise IndexError.
Proof. split; reflexivity. Qed.

(** ** solver.py: what a negative answer covers *)

Lemma check_board_none b test_board :
  check_board b test_board = None → ¬ points b ⊆ simulate_board test_board.
Proof.
  unfold check_board.
  by destruct (bool_decide_reflect (points b ⊆ simulate_board test_board)).
Qed.

Lemma solve_optimized_positions use_hot_slots b ps res :
  get_placeable_positions b = Ok ps →
  solve_optimized use_hot_slots b = Ok res →
  get_blocks_to_place b ≠ [] →
  ∃ positions, positions ≡ₚ ps ∧
    ((length positions < length (get_blocks_to_place b))%nat ∧ res = None
     ∨ first_success (combinations positions (length (get_blocks_to_place b)))
         (fun pos_combo =>
            first_success (generate_unique_permutations (get_blocks_to_place b))
              (fun block_perm =>
                 first_success
                   (product_ad (length (reflect_positions_of (zip pos_combo block_perm))))
                   (try_candidate b (zip pos_combo block_perm)))) = Ok res).
Proof.
  intros Hps. unfold solve_optimized. rewrite Hps. cbn [rbind].
  destruct (get_blocks_to_place b) as [|bt blocks]; [done|].
  intros Hres _. revert Hres.
  destruct use_hot_slots.
  - destruct (_sort_slots_target_first b ps) as [sps|e] eqn:Hsort; cbn [rbind];
      [|discriminate].
    destruct (_hot_slots_by_empty_trace b) as [hot|e]; cbn [rbind]; [|discriminate].
    destruct (Nat.ltb_spec (length sps) (length (bt :: blocks))); intros Hres;
      exists sps; (split; [by eapply sort_slots_target_first_perm_of|]);
      [left; split; [done|congruence]|by right].
  - cbn [rbind].
    destruct (Nat.ltb_spec (length ps) (length (bt :: blocks))); intros Hres;
      exists ps; (split; [done|]); [left; split; [done|congruence]|by right].
Qed.

(** X8. A negative answer of [solve_optimized] is exhaustive.  When it
    returns None there is an ordering of the placeable cells such that every
    selection of cells in that order, every arrangement of the blocks to
    place on them and every choice of '/' or '\\' for the mirrors gives a
    board whose simulation misses a target. *)
Theorem solve_optimized_complete (use_hot_slots : bool) (b : Board) (ps : list (Z * Z)) :
  get_placeable_positions b = Ok ps →
  solve_optimized use_hot_slots b = Ok None →
  ∃ positions, positions ≡ₚ ps ∧
    ∀ cells perm orient test_board,
      cells `sublist_of` positions →
      perm ≡ₚ get_blocks_to_place b →
      length cells = length perm →
      length orient = length (reflect_positions_of (zip cells perm)) →
      Forall (fun o => o = "a" ∨ o = "d") orient →
      place_oriented b (zip cells perm)
        (orient_map_of (zip (reflect_positions_of (zip cells perm)) orient))
      = Ok test_board →
      ¬ points b ⊆ simulate_board test_board.
Proof.
  intros Hps Hnone.
  destruct (get_blocks_to_place b) as [|bt blocks] eqn:Hblocks.
  { exists ps. split; [done|].
    intros cells perm orient test_board _ ->%Permutation_nil_r Hlen _ _.
    destruct cells; [|done]. simpl. intros [= <-].
    unfold solve_optimized in Hnone. rewrite Hps, Hblocks in Hnone. simpl in Hnone.
    apply check_board_none. congruence. }
  destruct (solve_optimized_positions use_hot_slots b ps None Hps Hnone)
    as (positions & Hperm & Hsearch); [by rewrite Hblocks|].
  rewrite Hblocks in Hsearch.
  exists positions. split; [done|].
  intros cells perm orient test_board Hsub Hp Hlen Horient Hao Hplace.
  destruct Hsearch as [[Hfew _]|Hsearch].
  { apply sublist_length in Hsub. rewrite (Permutation_length Hp) in Hlen. lia. }
  pose proof (first_success_none _ _ Hsearch cells) as H1.
  rewrite combinations_spec in H1.
  specialize (H1 (conj Hsub (eq_trans Hlen (Permutation_length Hp)))).
  pose proof (first_success_none _ _ H1 perm) as H2.
  specialize (H2 (proj2 (proj2 (generate_unique_permutations_facts _ perm)) Hp)).
  pose proof (first_success_none _ _ H2 orient) as H3.
  rewrite <- Horient in H3. specialize (H3 (product_ad_complete orient Hao)).
  unfold try_candidate in H3. rewrite Hplace in H3.
  apply check_board_none. congruence.
Qed.

Lemma solve_optimized_complete_witness :
  ∃ positions, positions ≡ₚ [(0, 0); (0, 1); (1, 0); (1, 1)] ∧
    ∀ cells perm orient test_board,
      cells `sublist_of` positions →
      perm ≡ₚ get_blocks_to_place unreachable_board →
      length cells = length perm →
      length orient = length (reflect_positions_of (zip cells perm)) →
      Forall (fun o => o = "a" ∨ o = "d") orient →
      place_oriented unreachable_board (zip cells perm)
        (orient_map_of (zip (reflect_positions_of (zip cells perm)) orient))
      = Ok test_board →
      ¬ points unreachable_board ⊆ simulate_board test_board.
Proof.
  apply (solve_optimized_complete true unreachable_board [(0, 0); (0, 1); (1, 0); (1, 1)]);
    vm_compute; reflexivity.
Defined.

(** X9. A negative answer of [solve] covers every selection of placeable
    cells (in row-major order) and every arrangement of the blocks to place
    on them, the mirrors as '/' only: each such board misses a target. *)
Theorem solve_complete (b : Board) (ps : list (Z * Z)) :
  get_placeable_positions b = Ok ps →
  solve b = Ok None →
  ∀ cells perm test_board,
    cells `sublist_of` ps →
    perm ≡ₚ get_blocks_to_place b →
    length cells = length perm →
    place_all b cells perm 0 = Ok test_board →
    ¬ points b ⊆ simulate_board test_board.
Proof.
  intros Hps Hnone cells perm test_board Hsub Hp Hlen Hplace.
  unfold solve, solve_with in Hnone. rewrite Hps in Hnone. simpl in Hnone.
  destruct (get_blocks_to_place b) as [|bt blocks] eqn:Hblocks.
  { apply Permutation_nil_r in Hp as ->. destruct cells; [|done].
    simpl in Hplace. injection Hplace as <-. apply check_board_none. congruence. }
  pose proof (first_success_none _ _ Hnone cells) as H1.
  rewrite combinations_spec in H1.
  specialize (H1 (conj Hsub (eq_trans Hlen (Permutation_length Hp)))).
  pose proof (first_success_none _ _ H1 perm) as H2.
  specialize (H2 (proj2 (proj2 (unique_first_spec _) perm)
                    (proj2 (permutations_spec _ perm) Hp))).
  cbv beta in H2. rewrite Hplace in H2. simpl in H2.
  apply check_board_none. congruence.
Qed.

Lemma solve_complete_witness :
  ¬ points backslash_board
    ⊆ simulate_board
        (mkBoard open_2x2 {[(0, 1) := mkBlock REFLECT 0 1]} one_mirror
                 [mkLaser 0 1 1 0] {[(2, 3)]}).
Proof.
  apply (solve_complete backslash_board [(0, 0); (0, 1); (1, 0); (1, 1)]
           eq_refl eq_refl [(0, 1)] [REFLECT]).
  - apply sublist_cons, sublist_skip, sublist_nil_l.
  - reflexivity.
  - reflexivity.
  - vm_compute. reflexivity.
Defined.

(** ** solver.py: the board a driver returns *)






(** ** solver.py: the inventory *)

(** X11. The blocks to place are the types of the inventory with a positive
    count, and there are as many of them as the positive counts add up to:
    a zero or negative count contributes nothing. *)
Theorem get_blocks_to_place_spec (b : Board) :
  (∀ bt, bt ∈ get_blocks_to_place b ↔ ∃ n, (bt, n) ∈ free_blocks b ∧ 0 < n) ∧
  length (get_blocks_to_place b)
  = sum_list (map (fun tc : BlockType * Z => Z.to_nat tc.2) (free_blocks b)).
Proof.
  unfold get_blocks_to_place. split.
  - intros bt. rewrite list_elem_of_flat_map. split.
    + intros ([t n] & [-> Hn]%elem_of_replicate & Hin). simpl in *.
      exists n. split; [done|lia].
    + intros (n & Hin & Hn). exists (bt, n). split; [|done].
      apply elem_of_replicate. simpl. split; [done|lia].
  - induction (free_blocks b) as [|[t n] rest IH]; simpl; [done|].
    by rewrite length_app, length_replicate, IH.
Qed.

Lemma combinations_too_long {A} (l : list A) k :
  (length l < k)%nat → combinations l k = [].
Proof.
  intros Hlen. destruct (combinations l k) as [|c cs] eqn:Hc; [done|].
  assert (Hin : c ∈ combinations l k) by (rewrite Hc; left).
  apply combinations_spec in Hin as [Hsub <-]. apply sublist_length in Hsub. lia.
Qed.

(** X12. With more blocks to place than placeable cells both drivers answer
    None on a rectangular board, without placing anything. *)
Theorem too_many_blocks_no_solution (use_hot_slots : bool) (b : Board) (ps : list (Z * Z)) :
  rectangular b →
  get_placeable_positions b = Ok ps →
  (length ps < length (get_blocks_to_place b))%nat →
  solve b = Ok None ∧ solve_optimized use_hot_slots b = Ok None.
Proof.
  intros Hrect Hps Hlen. split.
  - unfold solve, solve_with. rewrite Hps. simpl.
    destruct (get_blocks_to_place b) as [|bt blocks]; [simpl in Hlen; lia|].
    by rewrite combinations_too_long.
  - destruct (solve_optimized_never_raises b use_hot_slots Hrect) as [res Hres].
    rewrite Hres. f_equal.
    destruct (solve_optimized_positions use_hot_slots b ps res Hps Hres)
      as (positions & Hperm & [[_ ->]|Hsearch]); [|done|].
    { intros Hnil. rewrite Hnil in Hlen. simpl in Hlen. lia. }
    rewrite combinations_too_long in Hsearch; [by injection Hsearch|].
    by rewrite (Permutation_length Hperm).
Qed.

Lemma too_many_blocks_no_solution_witness :
  solve crowded_board = Ok None ∧ solve_optimized true crowded_board = Ok None.
Proof.
  apply (too_many_blocks_no_solution true crowded_board [(0, 0); (0, 1)]).
  - repeat constructor.
  - vm_compute. reflexivity.
  - vm_compute. lia.
Defined.

(** ** simulator.py: single steps *)

Lemma apply_interactions_opaque inters : ∀ beams boundary,
  (boundary, "b") ∈ inters → apply_interactions inters beams = [].
Proof.
  induction inters as [|[bd ch] rest IH]; intros beams boundary; simpl.
  { by intros ?%elem_of_nil. }
  intros [[= <- <-]|Hin]%elem_of_cons.
  - assert (Hnone : interact_all boundary "b" beams = []).
    { unfold interact_all. induction beams as [|d ds IHd]; simpl; [done|exact IHd]. }
    by rewrite Hnone.
  - destruct (interact_all bd ch beams); [done|]. by eapply IH.
Qed.

(** X13. An opaque block absorbs: when a step meets a block marked 'b', at
    the corner or across either edge, no beam leaves the step, whatever
    other block it meets. *)
Theorem opaque_absorbs (b : Board) (px py dx dy : Z) (boundary : string) :
  (boundary, "b") ∈ collect_interactions b px py dx dy →
  _step_and_collide b px py dx dy = (px + dx, py + dy, []).
Proof.
  intros Hin. unfold _step_and_collide. f_equal. by eapply apply_interactions_opaque.
Qed.

Lemma opaque_absorbs_witness :
  _step_and_collide
    (mkBoard [["x"; "o"]; ["o"; "o"]] {[(0, 0) := mkBlock OPAQUE 0 0]} no_blocks
             [mkLaser 0 1 1 0] ∅) 0 1 1 0 = (0 + 1, 1 + 0, []).
Proof.
  apply (opaque_absorbs _ 0 1 1 0 "horizontal").
  vm_compute. left.
Defined.

Lemma same_magnitudes_refl v : same_magnitudes v v.
Proof. by left. Qed.

Lemma same_magnitudes_trans v d e :
  same_magnitudes v d → same_magnitudes d e → same_magnitudes v e.
Proof.
  unfold same_magnitudes.
  intros [[= H1 H2]|[= H1 H2]] [[= H3 H4]|[= H3 H4]];
    [left|right|right|left]; f_equal; congruence.
Qed.

Lemma interact_facts ch a c boundary :
  (length (_interact ch a c boundary) ≤ 2)%nat ∧
  ∀ d, d ∈ _interact ch a c boundary → same_magnitudes (a, c) d.
Proof.
  unfold _interact, _reflect_slash, _reflect_backslash.
  repeat match goal with |- context [String.eqb ?s ?t] => destruct (String.eqb s t) end;
    (split; [simpl; lia|]); intros d Hin;
    repeat (apply elem_of_cons in Hin as [->|Hin]);
    try (by apply elem_of_nil in Hin);
    unfold same_magnitudes; simpl; rewrite ?Z.abs_opp; auto.
Qed.

Lemma interact_all_facts v boundary ch beams :
  (∀ d, d ∈ beams → same_magnitudes v d) →
  (length (interact_all boundary ch beams) ≤ 2 * length beams)%nat ∧
  ∀ d, d ∈ interact_all boundary ch beams → same_magnitudes v d.
Proof.
  unfold interact_all. induction beams as [|[a c] rest IH]; intros Hall; simpl.
  { split; [lia|]. by intros d ?%elem_of_nil. }
  destruct IH as [Hlen Hmag]; [intros d Hd; apply Hall; by right|].
  destruct (interact_facts ch a c boundary) as [Hlen1 Hmag1].
  split; [rewrite length_app; lia|].
  intros d [Hd|Hd]%elem_of_app; [|by apply Hmag].
  eapply same_magnitudes_trans; [apply Hall; left|by apply Hmag1].
Qed.

Lemma apply_interactions_facts v inters : ∀ beams,
  (∀ d, d ∈ beams → same_magnitudes v d) →
  (length (apply_interactions inters beams) ≤ 2 ^ length inters * length beams)%nat ∧
  ∀ d, d ∈ apply_interactions inters beams → same_magnitudes v d.
Proof.
  induction inters as [|[bd ch] rest IH]; intros beams Hall; simpl.
  { split; [lia|done]. }
  destruct (interact_all_facts v bd ch beams Hall) as [Hlen Hmag].
  destruct (interact_all bd ch beams) as [|d ds] eqn:Hnext.
  { split; [simpl; lia|]. by intros d ?%elem_of_nil. }
  destruct (IH (d :: ds) Hmag) as [Hlen' Hmag']. split; [|done].
  etrans; [exact Hlen'|]. nia.
Qed.

Lemma collect_interactions_length b px py dx dy :
  (length (collect_interactions b px py dx dy) ≤ 2)%nat.
Proof.
  unfold collect_interactions, interaction.
  repeat match goal with
         | |- context [if ?g then _ else _] => destruct g
         | |- context [match ?o with Some _ => _ | None => _ end] => destruct o
         end; simpl; lia.
Qed.

Lemma step_beams_facts b px py dx dy :
  (length (_step_and_collide b px py dx dy).2 ≤ 4)%nat ∧
  ∀ d, d ∈ (_step_and_collide b px py dx dy).2 → same_magnitudes (dx, dy) d.
Proof.
  unfold _step_and_collide. simpl.
  destruct (apply_interactions_facts (dx, dy) (collect_interactions b px py dx dy)
              [(dx, dy)]) as [Hlen Hmag].
  { intros d ->%list_elem_of_singleton. apply same_magnitudes_refl. }
  split; [|exact Hmag].
  pose proof (collect_interactions_length b px py dx dy) as Hc.
  etrans; [exact Hlen|]. simpl.
  assert (2 ^ length (collect_interactions b px py dx dy) ≤ 2 ^ 2)%nat
    by (apply Nat.pow_le_mono_r; lia).
  simpl in *. lia.
Qed.

(** X14. One step turns a beam into at most four beams, and each of them
    keeps the two components of the incoming direction up to sign and
    order: an axis-parallel beam stays axis-parallel, a diagonal one stays
    diagonal, and no beam comes to rest. *)
Theorem step_beams_bounded (b : Board) (px py dx dy : Z) :
  (length (_step_and_collide b px py dx dy).2 ≤ 4)%nat ∧
  ∀ d, d ∈ (_step_and_collide b px py dx dy).2 → same_magnitudes (dx, dy) d.
Proof. apply step_beams_facts. Qed.

(** ** simulator.py: whole runs *)

Lemma off_board_false b px py :
  off_board b px py = false ↔ within_margin b (px, py).
Proof.
  unfold off_board, within_margin. simpl.
  rewrite !orb_false_iff, !Z.ltb_ge, !Z.gtb_ltb, !Z.ltb_ge. lia.
Qed.

Lemma enqueue_dirs_elems b new_x new_y out_dirs : ∀ visited l,
  l ∈ (enqueue_dirs b new_x new_y out_dirs visited).2 →
  (x l, y l) = (new_x, new_y) ∧ (vx l, vy l) ∈ out_dirs ∧
  off_board b (new_x + vx l) (new_y + vy l) = false.
Proof.
  induction out_dirs as [|[dx dy] rest IH]; intros visited l; simpl.
  { by intros ?%elem_of_nil. }
  destruct (off_board b (new_x + dx) (new_y + dy)) eqn:Hoff.
  { intros (? & ? & ?)%IH. split; [done|]. split; [by right|done]. }
  destruct (bool_decide _).
  { intros (? & ? & ?)%IH. split; [done|]. split; [by right|done]. }
  simpl. intros [->|(? & ? & ?)%IH]%elem_of_cons; simpl.
  - split; [done|]. split; [by left|done].
  - split; [done|]. split; [by right|done].
Qed.

Lemma loop_step_appended b st l :
  l ∈ (loop_step b st).2 →
  ∃ laser queue, active_lasers st = laser :: queue ∧
    (x l, y l) = (x laser + vx laser, y laser + vy laser) ∧
    (vx l, vy l) ∈ (_step_and_collide b (x laser) (y laser) (vx laser) (vy laser)).2 ∧
    off_board b (x l) (y l) = false ∧
    off_board b (x l + vx l) (y l + vy l) = false.
Proof.
  unfold loop_step. destruct (active_lasers st) as [|laser queue]; simpl.
  { by intros ?%elem_of_nil. }
  unfold _step_and_collide.
  destruct (off_board b (x laser + vx laser) (y laser + vy laser)) eqn:Hoff; simpl.
  { by intros ?%elem_of_nil. }
  intros ([= Hx Hy] & Hdir & Hnext)%enqueue_dirs_elems.
  exists laser, queue. rewrite Hx, Hy. by repeat split.
Qed.

Lemma enqueue_log_invariant b (R : Laser → Prop) :
  (∀ laser l, R laser →
     (x l, y l) = (x laser + vx laser, y laser + vy laser) →
     (vx l, vy l) ∈ (_step_and_collide b (x laser) (y laser) (vx laser) (vy laser)).2 →
     off_board b (x l) (y l) = false →
     off_board b (x l + vx l) (y l + vy l) = false → R l) →
  ∀ fuel st, (∀ l, l ∈ active_lasers st → R l) →
    ∀ l, l ∈ enqueue_log fuel b st → R l.
Proof.
  intros Hstep. induction fuel as [|fuel IH]; intros st Hq l; simpl.
  { by intros ?%elem_of_nil. }
  destruct (loop_cond st) eqn:Hcond; [|by intros ?%elem_of_nil].
  assert (Happ : ∀ l', l' ∈ (loop_step b st).2 → R l').
  { intros l' (laser & queue & Hqueue & Hpos & Hdir & Hin1 & Hin2)%loop_step_appended.
    eapply (Hstep laser); try done. apply Hq. rewrite Hqueue. left. }
  intros [Hl|Hl]%elem_of_app; [by apply Happ|].
  eapply IH; [|exact Hl].
  destruct (loop_cond_queue st Hcond) as (laser & queue & Hqueue & _).
  rewrite (loop_body_queue b st laser queue Hqueue).
  intros l' [Hl'|Hl']%elem_of_app; [|by apply Happ].
  apply Hq. rewrite Hqueue. by right.
Qed.

(** X15. Throughout a run every beam put on the queue has the direction
    components of one of the board's lasers, up to sign and order: a puzzle
    whose lasers are diagonal unit vectors only ever has diagonal unit
    beams. *)
Theorem run_keeps_direction_magnitudes (b : Board) (n : nat) (l : Laser) :
  l ∈ enqueue_log n b (init_state b) →
  ∃ s, s ∈ lasers b ∧ same_magnitudes (vx s, vy s) (vx l, vy l).
Proof.
  apply (enqueue_log_invariant b
           (fun l => ∃ s, s ∈ lasers b ∧ same_magnitudes (vx s, vy s) (vx l, vy l))).
  - intros laser l' (s & Hs & Hmag) _ Hdir _ _. exists s. split; [done|].
    eapply same_magnitudes_trans; [exact Hmag|].
    by apply (proj2 (step_beams_facts b (x laser) (y laser) (vx laser) (vy laser))).
  - intros l' Hl'. exists l'. split; [exact Hl'|apply same_magnitudes_refl].
Qed.

Lemma run_keeps_direction_magnitudes_witness :
  ∃ s, s ∈ lasers refract_pair_board ∧ same_magnitudes (vx s, vy s) (-1, 1).
Proof.
  apply (run_keeps_direction_magnitudes refract_pair_board 1 (mkLaser 2 2 (-1) 1)).
  vm_compute. do 2 right. left.
Defined.

Lemma loop_body_margin b st :
  (∀ l, l ∈ active_lasers st → queued_ok b l) →
  (∀ p, p ∈ hit_points st → within_margin b p ∨ seed_point b p) →
  (∀ l, l ∈ active_lasers (loop_body b st) → queued_ok b l) ∧
  (∀ p, p ∈ hit_points (loop_body b st) → within_margin b p ∨ seed_point b p).
Proof.
  intros Hq Hhits. unfold loop_body, loop_step.
  destruct (active_lasers st) as [|laser queue] eqn:Hqueue.
  { simpl. split; [|done]. intros l Hl. rewrite Hqueue in Hl. by apply elem_of_nil in Hl. }
  unfold _step_and_collide.
  set (new_x := x laser + vx laser). set (new_y := y laser + vy laser).
  set (hits := {[(new_x, new_y)]} ∪
               (if records_start b (iteration st + 1) laser
                then {[(x laser, y laser)]} ∪ hit_points st else hit_points st)
               : gset (Z * Z)).
  assert (Hlaser : queued_ok b laser) by (apply Hq; left).
  assert (Hhits' : ∀ p, p ∈ hits → within_margin b p ∨ seed_point b p).
  { intros p [->%elem_of_singleton|Hp]%elem_of_union.
    - destruct Hlaser as [Hseed|[_ Hnext]]; [right|by left].
      exists laser. split; [done|by right].
    - assert (Hstart : within_margin b (x laser, y laser) ∨ seed_point b (x laser, y laser)).
      { destruct Hlaser as [Hseed|[Hpos _]]; [right|by left].
        exists laser. split; [done|by left]. }
      destruct (records_start _ _ _); [|by apply Hhits].
      apply elem_of_union in Hp as [->%elem_of_singleton|Hp]; [done|by apply Hhits]. }
  assert (Hrest : ∀ l, l ∈ queue → queued_ok b l) by (intros l Hl; apply Hq; by right).
  destruct (off_board b new_x new_y) eqn:Hoff; simpl; [done|].
  split; [|done].
  intros l [Hl|Hl]%elem_of_app; [by apply Hrest|].
  apply enqueue_dirs_elems in Hl as ([= Hx Hy] & _ & Hnext).
  right. rewrite Hx, Hy. split; by apply off_board_false.
Qed.

Lemma while_loop_margin b fuel : ∀ st,
  (∀ l, l ∈ active_lasers st → queued_ok b l) →
  (∀ p, p ∈ hit_points st → within_margin b p ∨ seed_point b p) →
  ∀ p, p ∈ hit_points (while_loop fuel b st) → within_margin b p ∨ seed_point b p.
Proof.
  induction fuel as [|fuel IH]; intros st Hq Hhits; simpl; [done|].
  destruct (loop_cond st); [|done].
  destruct (loop_body_margin b st Hq Hhits) as [Hq' Hhits']. by apply IH.
Qed.

(** X16. The points a simulation returns stay within 10 half-block units of
    the board, apart from the start of a seed laser and the end of its first
    step, which are recorded wherever the puzzle puts them. *)
Theorem visited_points_within_margin (b : Board) (p : Z * Z) :
  p ∈ simulate_board b → within_margin b p ∨ seed_point b p.
Proof.
  apply while_loop_margin.
  - intros l Hl. by left.
  - intros p' Hp'. by apply not_elem_of_empty in Hp'.
Qed.

Lemma visited_points_within_margin_witness :
  within_margin two_lasers (14, 3) ∨ seed_point two_lasers (14, 3).
Proof.
  apply (visited_points_within_margin two_lasers (14, 3)).
  by_evaluation.
Defined.

Lemma loop_body_records_endpoint b st laser queue :
  active_lasers st = laser :: queue →
  (x laser + vx laser, y laser + vy laser) ∈ hit_points (loop_body b st).
Proof.
  intros Hq. unfold loop_body, loop_step. rewrite Hq. unfold _step_and_collide.
  set (hits := {[(x laser + vx laser, y laser + vy laser)]} ∪
               (if records_start b (iteration st + 1) laser
                then {[(x laser, y laser)]} ∪ hit_points st else hit_points st)
               : gset (Z * Z)).
  assert (Hin : (x laser + vx laser, y laser + vy laser) ∈ hits).
  { apply elem_of_union_l. by apply elem_of_singleton. }
  by destruct (off_board b _ _).
Qed.

Lemma while_loop_reaches b fuel : ∀ st pre laser post,
  active_lasers st = (pre ++ laser :: post)%list →
  (length pre < fuel)%nat →
  iteration st + Z.of_nat (length pre) < max_iterations →
  (x laser + vx laser, y laser + vy laser) ∈ hit_points (while_loop fuel b st).
Proof.
  induction fuel as [|fuel IH]; intros st pre laser post Hq Hfuel Hit; [lia|].
  simpl.
  assert (Hcond : loop_cond st = true).
  { unfold loop_cond. rewrite Hq. apply andb_true_iff. split.
    - apply negb_true_iff, bool_decide_eq_false. by destruct pre.
    - apply Z.ltb_lt. lia. }
  rewrite Hcond. destruct pre as [|first pre]; simpl in *.
  - apply while_loop_hits. by eapply loop_body_records_endpoint.
  - apply (IH _ pre laser (post ++ (loop_step b st).2)%list).
    + rewrite (loop_body_queue b st first _ Hq). by rewrite <- app_assoc.
    + lia.
    + rewrite (loop_body_iteration b st Hcond). lia.
Qed.

(** X17. The end of the first step of every seed laser is among the visited
    points, for each of the first 5000 lasers of the board: a beam is
    always traced at least one step, also when it starts outside the
    margin or inside a block. *)
Theorem seed_first_step_visited (b : Board) (i : nat) (s : Laser) :
  lasers b !! i = Some s → (i < 5000)%nat →
  (x s + vx s, y s + vy s) ∈ simulate_board b.
Proof.
  intros Hs Hi. unfold simulate_board.
  destruct (list_elem_of_split_length (lasers b) i s Hs) as (pre & post & Hsplit & Hlen).
  apply (while_loop_reaches b _ (init_state b) pre s post).
  - exact Hsplit.
  - unfold max_iterations. lia.
  - simpl. unfold max_iterations. lia.
Qed.

Lemma seed_first_step_visited_witness : (0 + 1, 3 + 0) ∈ simulate_board two_lasers.
Proof.
  apply (seed_first_step_visited two_lasers 1 (mkLaser 0 3 1 0)).
  - reflexivity.
  - lia.
Defined.

(** ** solver.py: the hot-first order *)

Lemma StronglySorted_lookup_lt {A} (R : A → A → Prop) (l : list A) (i j : nat) a c :
  StronglySorted R l → l !! i = Some a → l !! j = Some c → (i < j)%nat → R a c.
Proof.
  intros Hs. revert i j. induction Hs as [|h l Hs IH Hh]; intros i j; [done|].
  destruct i as [|i], j as [|j]; simpl; try lia.
  - intros [= <-] Hc _. rewrite Forall_forall in Hh. apply Hh.
    by eapply list_elem_of_lookup_2.
  - intros Ha Hc Hij. apply (IH i j); [done|done|lia].
Qed.

(** X18. [_sort_slots_by_laser_proximity] returns a permutation of the slots
    in which no cold cell stands before a hot cell and, among the hot cells
    as among the cold ones, rows and then columns ascend. *)
Theorem sort_slots_by_laser_proximity_hot_first (b : Board) (slots out : list (Z * Z)) :
  _sort_slots_by_laser_proximity b slots = Ok out →
  ∃ hot, _hot_slots_by_empty_trace b = Ok hot ∧ slots ≡ₚ out ∧
         StronglySorted (hot_first_le hot) out ∧ hot_before_cold hot out.
Proof.
  intros (hot & Hhot & Hperm & Hsorted)%sort_slots_by_laser_proximity_spec.
  exists hot. repeat split; try done.
  intros i j p q Hp Hq Hij Hqhot.
  destruct (StronglySorted_lookup_lt _ _ i j p q Hsorted Hp Hq Hij) as [[? _]|[Hiff _]];
    [done|by apply Hiff].
Qed.

Lemma sort_slots_by_laser_proximity_hot_first_witness :
  ∃ hot, _hot_slots_by_empty_trace column_board = Ok hot ∧
         [(2, 0); (1, 0); (0, 0)] ≡ₚ column_slots ∧
         StronglySorted (hot_first_le hot) column_slots ∧
         hot_before_cold hot column_slots.
Proof.
  apply (sort_slots_by_laser_proximity_hot_first column_board [(2, 0); (1, 0); (0, 0)]).
  vm_compute. reflexivity.
Defined.

(** ** board.py: building the board from the puzzle *)

Lemma from_letter_upper tok :
  String.eqb (upper tok) "A" || String.eqb (upper tok) "B"
  || String.eqb (upper tok) "C" = true →
  from_letter (upper tok) = from_letter tok ∧ ∃ k, from_letter tok = Ok k.
Proof.
  intros H. unfold from_letter at 1.
  apply orb_true_iff in H as [[H|H]%orb_true_iff|H];
    pose proof H as Hup; apply String.eqb_eq in Hup; unfold from_letter;
    rewrite Hup; simpl; eauto.
Qed.

Lemma convert_row_facts r row : ∀ c fixed new_row fixed',
  convert_row r c row fixed = Ok (new_row, fixed') →
  Forall2 normalised_cell row new_row ∧
  ∀ r' c' blk, fixed' !! (r', c') = Some blk →
    fixed !! (r', c') = Some blk
    ∨ (r' = r ∧ c ≤ c' ∧ (blk_r blk, blk_c blk) = (r, c') ∧
       ∃ tok, row !! Z.to_nat (c' - c) = Some tok ∧ from_letter tok = Ok (kind blk)).
Proof.
  induction row as [|tok rest IH]; intros c fixed new_row fixed'; simpl.
  { intros [= <- <-]. split; [constructor|by left]. }
  destruct (String.eqb (upper tok) "O" || String.eqb (upper tok) "X") eqn:Hox.
  - destruct (convert_row r (c + 1) rest fixed) as [[row1 fixed1]|e] eqn:Hrest;
      simpl; [|discriminate].
    intros [= <- <-]. destruct (IH _ _ _ _ Hrest) as [Hcells Hblocks]. split.
    + constructor; [|done]. unfold normalised_cell.
      apply orb_true_iff in Hox as [H|H]; pose proof H as Hup;
        apply String.eqb_eq in Hup; by rewrite Hup.
    + intros r' c' blk Hblk.
      destruct (Hblocks r' c' blk Hblk) as [?|(-> & Hc & Hpos & tok' & Htok & Hk)];
        [by left|right].
      split; [done|]. split; [lia|]. split; [done|]. exists tok'. split; [|done].
      replace (Z.to_nat (c' - c)) with (S (Z.to_nat (c' - (c + 1)))) by lia. exact Htok.
  - destruct (String.eqb (upper tok) "A" || String.eqb (upper tok) "B"
              || String.eqb (upper tok) "C") eqn:Habc; [|discriminate].
    destruct (from_letter_upper tok Habc) as [Hsame [k Hk]]. rewrite Hsame, Hk. simpl.
    destruct (convert_row r (c + 1) rest _) as [[row1 fixed1]|e] eqn:Hrest;
      simpl; [|discriminate].
    intros [= <- <-]. destruct (IH _ _ _ _ Hrest) as [Hcells Hblocks]. split.
    + constructor; [|done]. unfold normalised_cell.
      apply orb_false_iff in Hox as [-> _]. done.
    + intros r' c' blk Hblk.
      destruct (Hblocks r' c' blk Hblk) as [Hold|(-> & Hc & Hpos & tok' & Htok & Hk')].
      * destruct (decide ((r, c) = (r', c'))) as [[= <- <-]|Hne].
        -- rewrite lookup_insert_eq in Hold. injection Hold as <-. right.
           split; [done|]. split; [lia|]. split; [done|].
           exists tok. rewrite Z.sub_diag. by split.
        -- left. by rewrite lookup_insert_ne in Hold.
      * right. split; [done|]. split; [lia|]. split; [done|]. exists tok'. split; [|done].
        replace (Z.to_nat (c' - c)) with (S (Z.to_nat (c' - (c + 1)))) by lia. exact Htok.
Qed.

Lemma convert_rows_facts rows : ∀ r fixed new_grid fixed',
  convert_rows r rows fixed = Ok (new_grid, fixed') →
  Forall2 (Forall2 normalised_cell) rows new_grid ∧
  ∀ r' c' blk, fixed' !! (r', c') = Some blk →
    fixed !! (r', c') = Some blk
    ∨ (r ≤ r' ∧ 0 ≤ c' ∧ (blk_r blk, blk_c blk) = (r', c') ∧
       ∃ row tok, rows !! Z.to_nat (r' - r) = Some row ∧
                  row !! Z.to_nat c' = Some tok ∧ from_letter tok = Ok (kind blk)).
Proof.
  induction rows as [|row rest IH]; intros r fixed new_grid fixed'; simpl.
  { intros [= <- <-]. split; [constructor|by left]. }
  destruct (convert_row r 0 row fixed) as [[row1 fixed1]|e] eqn:Hrow; simpl; [|discriminate].
  destruct (convert_rows (r + 1) rest fixed1) as [[grid2 fixed2]|e] eqn:Hrest;
    simpl; [|discriminate].
  intros [= <- <-].
  destruct (convert_row_facts _ _ _ _ _ _ Hrow) as [Hcells1 Hblocks1].
  destruct (IH _ _ _ _ Hrest) as [Hcells2 Hblocks2].
  split; [by constructor|].
  intros r' c' blk Hblk.
  destruct (Hblocks2 r' c' blk Hblk) as [Hold|(Hr & Hc & Hpos & row' & tok & Hrow' & Htok & Hk)].
  - destruct (Hblocks1 r' c' blk Hold) as [?|(-> & Hc & Hpos & tok & Htok & Hk)];
      [by left|right].
    split; [lia|]. split; [lia|]. split; [done|]. exists row, tok.
    rewrite Z.sub_diag. rewrite Z.sub_0_r in Htok. by repeat split.
  - right. split; [lia|]. split; [lia|]. split; [done|]. exists row', tok.
    split; [|done].
    replace (Z.to_nat (r' - r)) with (S (Z.to_nat (r' - (r + 1)))) by lia. exact Hrow'.
Qed.

Lemma from_bffspec_grid_facts spec b :
  from_bffspec spec = Ok b →
  Forall2 (Forall2 normalised_cell) (grid_tokens spec) (grid b) ∧
  free_blocks b = spec_free_blocks spec ∧
  ∀ p, p ∈ points b ↔ p ∈ spec_points spec.
Proof.
  unfold from_bffspec.
  destruct (convert_rows 0 (grid_tokens spec) ∅) as [[g fixed]|e] eqn:Hrows;
    simpl; [|discriminate].
  intros [= <-]. simpl. split; [by apply (convert_rows_facts _ _ _ _ _ Hrows)|].
  split; [done|]. intros p. apply elem_of_list_to_set.
Qed.

(** X19. The grid of the board has the shape of the puzzle grid, row by row,
    and holds 'o' exactly where the token is o or O and 'x' everywhere else
    (blocked cells and the cells of fixed blocks); inventory and targets are
    taken over. *)
Theorem from_bffspec_grid (spec : BFFSpec) (b : Board) :
  from_bffspec spec = Ok b →
  Forall2 (Forall2 normalised_cell) (grid_tokens spec) (grid b) ∧
  free_blocks b = spec_free_blocks spec ∧
  ∀ p, p ∈ points b ↔ p ∈ spec_points spec.
Proof. apply from_bffspec_grid_facts. Qed.

Lemma from_bffspec_grid_witness :
  Forall2 (Forall2 normalised_cell) (grid_tokens fixed_mirror_spec) (grid fixed_mirror_board) ∧
  free_blocks fixed_mirror_board = spec_free_blocks fixed_mirror_spec ∧
  ∀ p, p ∈ points fixed_mirror_board ↔ p ∈ spec_points fixed_mirror_spec.
Proof.
  apply (from_bffspec_grid fixed_mirror_spec fixed_mirror_board).
  vm_compute. reflexivity.
Defined.

(** X20. Every fixed block of a board built from a puzzle sits on the cell
    it is filed under, carries the kind of the letter found there, and that
    cell is 'x' in the grid and not placeable. *)
Theorem from_bffspec_fixed_blocks (spec : BFFSpec) (b : Board) (r c : Z) (blk : Block) :
  from_bffspec spec = Ok b →
  fixed_blocks b !! (r, c) = Some blk →
  (blk_r blk, blk_c blk) = (r, c) ∧
  (∃ tok, grid_at (grid_tokens spec) r c = Some tok ∧ from_letter tok = Ok (kind blk)) ∧
  grid_at (grid b) r c = Some "x" ∧
  is_placeable b r c = Ok false.
Proof.
  intros Hb Hblk.
  pose proof (from_bffspec_fixed_on_x spec b r c blk Hb Hblk) as Hx.
  revert Hb Hblk. unfold from_bffspec.
  destruct (convert_rows 0 (grid_tokens spec) ∅) as [[g fixed]|e] eqn:Hrows;
    simpl; [|discriminate].
  intros [= <-]. simpl. intros Hblk.
  destruct (proj2 (convert_rows_facts _ _ _ _ _ Hrows) r c blk Hblk)
    as [Hempty|(Hr & Hc & Hpos & row & tok & Hrow & Htok & Hk)].
  { by rewrite lookup_empty in Hempty. }
  split; [done|]. split.
  - exists tok. split; [|done]. unfold grid_at.
    rewrite py_index_nonneg by lia. rewrite Z.sub_0_r in Hrow. rewrite Hrow. simpl.
    by rewrite py_index_nonneg by lia.
  - split; [done|]. unfold is_placeable. destruct (negb _); [done|]. simpl.
    by rewrite bool_decide_eq_true_2 by (rewrite Hblk; eauto).
Qed.

Lemma from_bffspec_fixed_blocks_witness :
  (blk_r (mkBlock REFLECT 0 0), blk_c (mkBlock REFLECT 0 0)) = (0, 0) ∧
  (∃ tok, grid_at (grid_tokens fixed_mirror_spec) 0 0 = Some tok
          ∧ from_letter tok = Ok (kind (mkBlock REFLECT 0 0))) ∧
  grid_at (grid fixed_mirror_board) 0 0 = Some "x" ∧
  is_placeable fixed_mirror_board 0 0 = Ok false.
Proof.
  apply (from_bffspec_fixed_blocks fixed_mirror_spec fixed_mirror_board 0 0).
  - vm_compute. reflexivity.
  - reflexivity.
Defined.

Lemma is_grid_token_split tok :
  is_grid_token tok
  = (String.eqb (upper tok) "O" || String.eqb (upper tok) "X")
    || (String.eqb (upper tok) "A" || String.eqb (upper tok) "B"
        || String.eqb (upper tok) "C").
Proof. unfold is_grid_token. by rewrite !orb_assoc. Qed.

Lemma convert_row_result r row : ∀ c fixed,
  match convert_row r c row fixed with
  | Ok _ => Forall (fun tok => is_grid_token tok = true) row
  | Raise e => e = ValueError ∧ ¬ Forall (fun tok => is_grid_token tok = true) row
  end.
Proof.
  induction row as [|tok rest IH]; intros c fixed; simpl; [constructor|].
  pose proof (is_grid_token_split tok) as Htok.
  destruct (String.eqb (upper tok) "O" || String.eqb (upper tok) "X") eqn:Hox.
  - specialize (IH (c + 1) fixed).
    destruct (convert_row r (c + 1) rest fixed) as [res|e]; simpl.
    + by constructor.
    + destruct IH as [-> Hbad]. split; [done|]. by intros [_ ?]%Forall_cons.
  - destruct (String.eqb (upper tok) "A" || String.eqb (upper tok) "B"
              || String.eqb (upper tok) "C") eqn:Habc.
    + destruct (from_letter_upper tok Habc) as [Hsame [k Hk]]. rewrite Hsame, Hk. simpl.
      specialize (IH (c + 1) (<[(r, c) := mkBlock k r c]> fixed)).
      destruct (convert_row r (c + 1) rest _) as [res|e]; simpl.
      * by constructor.
      * destruct IH as [-> Hbad]. split; [done|]. by intros [_ ?]%Forall_cons.
    + split; [done|]. intros [Hvalid _]%Forall_cons. simpl in Htok. congruence.
Qed.

Lemma convert_rows_result rows : ∀ r fixed,
  match convert_rows r rows fixed with
  | Ok _ => Forall (Forall (fun tok => is_grid_token tok = true)) rows
  | Raise e => e = ValueError
               ∧ ¬ Forall (Forall (fun tok => is_grid_token tok = true)) rows
  end.
Proof.
  induction rows as [|row rest IH]; intros r fixed; simpl; [constructor|].
  pose proof (convert_row_result r row 0 fixed) as Hrow.
  destruct (convert_row r 0 row fixed) as [res|e]; simpl.
  - specialize (IH (r + 1) res.2).
    destruct (convert_rows (r + 1) rest res.2) as [res'|e]; simpl.
    + by constructor.
    + destruct IH as [-> Hbad]. split; [done|]. by intros [_ ?]%Forall_cons.
  - destruct Hrow as [-> Hbad]. split; [done|]. by intros [? _]%Forall_cons.
Qed.

(** X21. Board construction succeeds exactly when every grid token is one of
    o, x, A, B, C in either case; otherwise it raises ValueError and nothing
    else. *)
Theorem from_bffspec_errors (spec : BFFSpec) :
  ((∃ b, from_bffspec spec = Ok b)
   ↔ Forall (Forall (fun tok => is_grid_token tok = true)) (grid_tokens spec)) ∧
  ∀ e, from_bffspec spec = Raise e → e = ValueError.
Proof.
  unfold from_bffspec.
  pose proof (convert_rows_result (grid_tokens spec) 0 ∅) as Hres.
  destruct (convert_rows 0 (grid_tokens spec) ∅) as [res|e]; simpl.
  - split; [split; [done|eauto]|discriminate].
  - destruct Hres as [-> Hbad]. split; [|by intros e [= <-]].
    split; [by intros [b ?]|done].
Qed.

Example from_bffspec_rejects_token :
  from_bffspec (mkBFFSpec [["o"; "D"]] no_blocks [] []) = Raise ValueError.
Proof. reflexivity. Qed.

Lemma Forall2_grid_at (P : string → string → Prop) g1 g2 r c :
  Forall2 (Forall2 P) g1 g2 → 0 ≤ r → 0 ≤ c →
  match grid_at g1 r c, grid_at g2 r c with
  | Some t1, Some t2 => P t1 t2
  | None, None => True
  | _, _ => False
  end.
Proof.
  intros Hg Hr Hc. unfold grid_at. rewrite !py_index_nonneg by lia.
  destruct (g1 !! Z.to_nat r) as [row1|] eqn:H1.
  - destruct (Forall2_lookup_l _ _ _ _ _ Hg H1) as (row2 & -> & Hrow). simpl.
    rewrite !py_index_nonneg by lia.
    destruct (row1 !! Z.to_nat c) as [t1|] eqn:Ht1.
    + by destruct (Forall2_lookup_l _ _ _ _ _ Hrow Ht1) as (t2 & -> & ?).
    + destruct (row2 !! Z.to_nat c) as [t2|] eqn:Ht2; [|done].
      destruct (Forall2_lookup_r _ _ _ _ _ Hrow Ht2) as (t1 & ? & _). congruence.
  - destruct (g2 !! Z.to_nat r) as [row2|] eqn:H2; [|done].
    destruct (Forall2_lookup_r _ _ _ _ _ Hg H2) as (row1 & ? & _). congruence.
Qed.

(** X22. On a board built from a puzzle a cell of the board is placeable
    exactly when its token is o or O. *)
Theorem from_bffspec_placeable (spec : BFFSpec) (b : Board) (r c : Z) :
  from_bffspec spec = Ok b →
  in_bounds b r c = true →
  (is_placeable b r c = Ok true
   ↔ ∃ tok, grid_at (grid_tokens spec) r c = Some tok ∧ upper tok = "O").
Proof.
  intros Hb Hin.
  destruct (from_bffspec_grid_facts spec b Hb) as [Hgrid _].
  pose proof Hin as [Hr Hc]%in_bounds_spec.
  pose proof (Forall2_grid_at normalised_cell _ _ r c Hgrid (proj1 Hr) (proj1 Hc)) as Hcell.
  rewrite is_placeable_true. split.
  - intros (_ & _ & Hopen). rewrite Hopen in Hcell.
    destruct (grid_at (grid_tokens spec) r c) as [tok|]; [|done].
    exists tok. split; [done|]. unfold normalised_cell in Hcell.
    by destruct (String.eqb_spec (upper tok) "O").
  - intros (tok & Htok & Hup). rewrite Htok in Hcell.
    destruct (grid_at (grid b) r c) as [cell|] eqn:Hg; [|done].
    unfold normalised_cell in Hcell. rewrite Hup in Hcell. simpl in Hcell. subst cell.
    split; [done|]. split; [|done].
    destruct (fixed_blocks b !! (r, c)) as [blk|] eqn:Hblk; [|done].
    pose proof (from_bffspec_fixed_on_x spec b r c blk Hb Hblk). congruence.
Qed.

Lemma from_bffspec_placeable_witness :
  is_placeable fixed_mirror_board 0 1 = Ok true
  ↔ ∃ tok, grid_at (grid_tokens fixed_mirror_spec) 0 1 = Some tok ∧ upper tok = "O".
Proof.
  apply (from_bffspec_placeable fixed_mirror_spec fixed_mirror_board 0 1).
  - vm_compute. reflexivity.
  - reflexivity.
Defined.

(** ** simulator.py and solver.py: the markers of placed blocks *)

Lemma collect_interactions_entries b px py dx dy boundary ch :
  (boundary, ch) ∈ collect_interactions b px py dx dy →
  is_block_ch ch = true ∧
  (boundary = "vertical" ∨ boundary = "horizontal" ∨ boundary = "corner").
Proof.
  assert (Hfirst : ∀ cells ch', first_block b cells = Some ch' → is_block_ch ch' = true).
  { induction cells as [|[r c] rest IH]; intros ch'; simpl; [discriminate|].
    destruct (_block_ch_at b r c) as [ch0|] eqn:H0; [|apply IH].
    intros [= <-]. by eapply block_ch_at_marker. }
  assert (Hv : ∀ mx y vy ch', _block_across_vertical_edge b mx y vy = Some ch' →
                              is_block_ch ch' = true).
  { intros mx y vy ch'. unfold _block_across_vertical_edge.
    destruct (negb _); [discriminate|apply Hfirst]. }
  assert (Hh : ∀ x my vx ch', _block_across_horizontal_edge b x my vx = Some ch' →
                              is_block_ch ch' = true).
  { intros x my vx ch'. unfold _block_across_horizontal_edge.
    destruct (negb _); [discriminate|apply Hfirst]. }
  assert (Hi : ∀ label blk, (boundary, ch) ∈ interaction label blk →
                            boundary = label ∧ blk = Some ch).
  { intros label [ch'|]; simpl; [|by intros ?%elem_of_nil].
    by intros [= -> ->]%list_elem_of_singleton. }
  unfold collect_interactions.
  set (mx := (px + (px + dx)) `div` 2). set (my := (py + (py + dy)) `div` 2).
  destruct ((mx `mod` 2 =? 1) && (my `mod` 2 =? 1)).
  - destruct (_block_ch_at b _ _) as [corner|] eqn:Hcorner.
    + intros [= -> ->]%list_elem_of_singleton.
      split; [by eapply block_ch_at_marker|auto].
    + intros [[-> Hb]%Hi|[-> Hb]%Hi]%elem_of_app; split; eauto.
  - intros [Hin|Hin]%elem_of_app.
    + destruct (mx `mod` 2 =? 1); [|by apply elem_of_nil in Hin].
      apply Hi in Hin as [-> Hb]. split; eauto.
    + destruct (my `mod` 2 =? 1); [|by apply elem_of_nil in Hin].
      apply Hi in Hin as [-> Hb]. split; eauto.
Qed.

(** X23. Every interaction a step collects is with one of the four block
    markers a, b, c, d and is labelled vertical, horizontal or corner: the
    simulator never calls [_interact] without a block, so the final
    pass-through return of [_interact] is not reached from it. *)
Theorem step_interactions_are_blocks (b : Board) (px py dx dy : Z)
  (boundary ch : string) :
  (boundary, ch) ∈ collect_interactions b px py dx dy →
  (ch = "a" ∨ ch = "b" ∨ ch = "c" ∨ ch = "d") ∧
  (boundary = "vertical" ∨ boundary = "horizontal" ∨ boundary = "corner").
Proof.
  intros [Hch Hb]%collect_interactions_entries. split; [|done].
  by apply is_block_ch_spec.
Qed.

Lemma step_interactions_are_blocks_witness :
  ("a" = "a" ∨ "a" = "b" ∨ "a" = "c" ∨ "a" = "d") ∧
  ("corner" = "vertical" ∨ "corner" = "horizontal" ∨ "corner" = "corner").
Proof.
  apply (step_interactions_are_blocks fixed_mirror_board 1 1 1 1 "corner" "a").
  vm_compute. left.
Defined.

Lemma lower_marker ch : is_block_ch ch = true → lower ch = ch.
Proof. by intros [->|[->|[->| ->]]]%is_block_ch_spec. Qed.

Lemma block_ch_at_set_grid_this b r c ch tok :
  in_bounds b r c = true → grid_at (grid b) r c = Some tok → is_block_ch ch = true →
  _block_ch_at (set_grid b r c ch) r c = Some ch.
Proof.
  intros Hin Htok Hch. unfold _block_ch_at. rewrite set_grid_in_bounds, Hin.
  apply in_bounds_spec in Hin as [Hr Hc].
  rewrite (set_grid_this_cell b r c ch tok) by (done || lia).
  by rewrite (lower_marker ch Hch), Hch.
Qed.

Lemma block_ch_at_set_grid_other b r c ch r' c' :
  0 ≤ r → 0 ≤ c → (r', c') ≠ (r, c) →
  _block_ch_at (set_grid b r c ch) r' c' = _block_ch_at b r' c'.
Proof.
  intros Hr Hc Hne. unfold _block_ch_at. rewrite set_grid_in_bounds.
  destruct (in_bounds b r' c') eqn:Hin; [|done].
  apply in_bounds_spec in Hin as [Hr' Hc'].
  by rewrite set_grid_other_cell by (done || lia).
Qed.

Lemma place_oriented_keeps_blocks (placements : list ((Z * Z) * BlockType))
  (orient_map : gmap (Z * Z) string) : ∀ tb tb',
  place_oriented tb placements orient_map = Ok tb' →
  ∀ r c, is_Some (fixed_blocks tb !! (r, c)) →
    _block_ch_at tb' r c = _block_ch_at tb r c.
Proof.
  induction placements as [|[[r0 c0] bt] rest IH]; intros tb tb'; simpl.
  { by intros [= <-]. }
  destruct (place_block tb r0 c0 bt) as [tb1|e] eqn:Hplace; simpl; [|discriminate].
  match goal with |- rbind ?m _ = _ → _ => destruct m as [ch|e] end; simpl; [|discriminate].
  intros Hrest r c Hblk.
  pose proof Hplace as [(Hin & Hfree & _)%is_placeable_true Htb1]%place_block_ok.
  assert (Hne : (r, c) ≠ (r0, c0)).
  { intros [= -> ->]. rewrite Hfree in Hblk. by destruct Hblk. }
  apply in_bounds_spec in Hin as [Hr0 Hc0].
  rewrite (IH _ _ Hrest r c).
  - rewrite block_ch_at_set_grid_other by (done || lia).
    by destruct (place_block_other_cell tb r0 c0 bt tb1 r c Hplace Hne).
  - subst tb1. simpl. rewrite lookup_insert_ne by done. exact Hblk.
Qed.

(** X24. The board built by the placing loop of [solve_optimized] shows the
    simulator, at every cell of the candidate, the marker that was chosen:
    the orientation picked for a Reflect block, 'b' for an Opaque block and
    'c' for a Refract block. *)
Theorem place_oriented_markers (placements : list ((Z * Z) * BlockType))
  (orient_map : gmap (Z * Z) string) (b test_board : Board) (r c : Z) (bt : BlockType) :
  place_oriented b placements orient_map = Ok test_board →
  (∀ k o, orient_map !! k = Some o → o = "a" ∨ o = "d") →
  ((r, c), bt) ∈ placements →
  _block_ch_at test_board r c
  = match bt with
    | REFLECT => orient_map !! (r, c)
    | OPAQUE => Some "b"
    | REFRACT => Some "c"
    end.
Proof.
  intros Hplace Hao. revert b Hplace.
  induction placements as [|[[r0 c0] bt0] rest IH]; intros b; simpl.
  { by intros _ ?%elem_of_nil. }
  destruct (place_block b r0 c0 bt0) as [tb1|e] eqn:Hblock; simpl; [|discriminate].
  match goal with |- rbind ?m _ = _ → _ => destruct m as [ch|e] eqn:Hch end;
    simpl; [|discriminate].
  intros Hrest [[= <- <- <-]|Hin]%elem_of_cons; [|by eapply IH].
  pose proof Hblock as [(Hin & _ & Hopen)%is_placeable_true Htb1]%place_block_ok.
  rewrite (place_oriented_keeps_blocks _ _ _ _ Hrest r c).
  - assert (Hmark : is_block_ch ch = true ∧
                    Some ch = match bt with
                              | REFLECT => orient_map !! (r, c)
                              | OPAQUE => Some "b"
                              | REFRACT => Some "c"
                              end).
    { destruct bt; simpl in Hch.
      - destruct (orient_map !! (r, c)) as [o|] eqn:Ho; [|discriminate].
        injection Hch as <-. split; [|done].
        by destruct (Hao _ _ Ho) as [-> | ->].
      - by injection Hch as <-.
      - by injection Hch as <-. }
    destruct Hmark as [Hmarker <-].
    apply (block_ch_at_set_grid_this tb1 r c ch "o"); [|by subst tb1|done].
    by subst tb1.
  - subst tb1. simpl. rewrite lookup_insert_eq. eauto.
Qed.

Lemma place_oriented_markers_witness :
  _block_ch_at backslash_board_solved 1 0
  = ({[(1, 0) := "d"]} : gmap (Z * Z) string) !! (1, 0).
Proof.
  apply (place_oriented_markers [((1, 0), REFLECT)] {[(1, 0) := "d"]}
           backslash_board backslash_board_solved 1 0 REFLECT).
  - vm_compute. reflexivity.
  - intros k o [<- <-]%lookup_singleton_Some. by right.
  - left.
Defined.

Lemma place_all_keeps_blocks cells perm : ∀ tb i tb',
  place_all tb cells perm i = Ok tb' →
  ∀ r c, is_Some (fixed_blocks tb !! (r, c)) →
    _block_ch_at tb' r c = _block_ch_at tb r c.
Proof.
  induction cells as [|[r0 c0] rest IH]; intros tb i tb'; simpl.
  { by intros [= <-]. }
  destruct (perm !! i) as [bt|]; [|discriminate].
  destruct (place_block tb r0 c0 bt) as [tb1|e] eqn:Hplace; simpl; [|discriminate].
  intros Hrest r c Hblk.
  pose proof Hplace as [(_ & Hfree & _)%is_placeable_true Htb1]%place_block_ok.
  assert (Hne : (r, c) ≠ (r0, c0)).
  { intros [= -> ->]. rewrite Hfree in Hblk. by destruct Hblk. }
  rewrite (IH _ _ _ Hrest r c).
  - by destruct (place_block_other_cell tb r0 c0 bt tb1 r c Hplace Hne).
  - subst tb1. simpl. rewrite lookup_insert_ne by done. exact Hblk.
Qed.

Lemma place_block_marker b r c k b' :
  place_block b r c k = Ok b' → _block_ch_at b' r c = Some (kind_marker k).
Proof.
  intros [(Hin & _ & Hopen)%is_placeable_true ->]%place_block_ok.
  unfold _block_ch_at, in_bounds, nrows, ncols in *. simpl.
  rewrite Hin, Hopen, lookup_insert_eq. simpl. by destruct k.
Qed.

(** X25. In every board built by the placing loop of [solve] a placed block
    is seen by the simulator through its kind alone: a Reflect block as
    'a', the '/' mirror, never as 'd'. *)
Theorem place_all_markers (b test_board : Board) (cells : list (Z * Z))
  (perm : list BlockType) (i : nat) (r c : Z) (bt : BlockType) :
  place_all b cells perm 0 = Ok test_board →
  cells !! i = Some (r, c) → perm !! i = Some bt →
  _block_ch_at test_board r c = Some (kind_marker bt).
Proof.
  assert (Hgen : ∀ cells tb j tb' i,
            place_all tb cells perm j = Ok tb' →
            cells !! i = Some (r, c) → perm !! (j + i)%nat = Some bt →
            _block_ch_at tb' r c = Some (kind_marker bt)).
  { clear. induction cells as [|[r0 c0] rest IH]; intros tb j tb' i; simpl; [done|].
    destruct (perm !! j) as [bt0|] eqn:Hj; [|discriminate].
    destruct (place_block tb r0 c0 bt0) as [tb1|e] eqn:Hplace; simpl; [|discriminate].
    intros Hrest. destruct i as [|i]; simpl.
    - intros [= -> ->]. rewrite Nat.add_0_r, Hj. intros [= ->].
      rewrite (place_all_keeps_blocks _ _ _ _ _ Hrest r c).
      + by eapply place_block_marker.
      + apply place_block_ok in Hplace as [_ ->]. simpl.
        rewrite lookup_insert_eq. eauto.
    - intros Hcell Hbt. apply (IH _ _ _ i Hrest Hcell).
      by replace (S j + i)%nat with (j + S i)%nat by lia. }
  intros Hplace Hcell Hbt. by apply (Hgen cells b 0%nat test_board i).
Qed.

Lemma place_all_markers_witness :
  _block_ch_at slash_board_solved 0 0 = Some (kind_marker REFLECT).
Proof.
  apply (place_all_markers slash_board slash_board_solved [(0, 0)] [REFLECT] 0 0 0 REFLECT).
  - vm_compute. reflexivity.
  - reflexivity.
  - reflexivity.
Defined.

(** ** Text output *)

Lemma rmapM_ext {A B} (f g : A → result B) (l : list A) :
  (∀ a, a ∈ l → f a = g a) → rmapM f l = rmapM g l.
Proof.
  induction l as [|a rest IH]; intros Hfg; simpl; [done|].
  rewrite (Hfg a) by left. rewrite IH; [done|]. intros a' Ha'. apply Hfg. by right.
Qed.

Lemma cells_under_block_hidden (cell : Board → Z → Z → result string)
  (b : Board) (r c : Z) (ch1 ch2 : string) :
  (∀ b1 b2 r' c', fixed_blocks b1 = fixed_blocks b2 →
     (fixed_blocks b1 !! (r', c') = None →
      grid_at (grid b1) r' c' = grid_at (grid b2) r' c') →
     cell b1 r' c' = cell b2 r' c') →
  is_Some (fixed_blocks b !! (r, c)) → 0 ≤ r → 0 ≤ c →
  rmapM (fun r' => rmapM (cell (set_grid b r c ch1) r') (seqZ 0 (ncols (set_grid b r c ch1))))
        (seqZ 0 (nrows (set_grid b r c ch1)))
  = rmapM (fun r' => rmapM (cell (set_grid b r c ch2) r') (seqZ 0 (ncols (set_grid b r c ch2))))
          (seqZ 0 (nrows (set_grid b r c ch2))).
Proof.
  intros Hcell Hblk Hr Hc. rewrite !set_grid_nrows, !set_grid_ncols.
  apply rmapM_ext. intros r' Hr'%elem_of_seqZ.
  apply rmapM_ext. intros c' Hc'%elem_of_seqZ.
  apply Hcell; [done|]. intros Hnone. simpl in Hnone.
  assert (Hne : (r', c') ≠ (r, c)).
  { intros [= -> ->]. rewrite Hnone in Hblk. by destruct Hblk. }
  by rewrite !set_grid_other_cell by (done || lia).
Qed.

(** X26. Neither text output shows what the grid holds under a block: for a
    cell with an entry in [fixed_blocks], [Board.to_ascii] and
    [format_board_with_solution] give the same text whatever marker the grid
    has there.  The solution written for a mirror placed as '/' and the one
    for the same mirror placed as '\\' are the same. *)
Theorem output_hides_orientation (b : Board) (r c : Z) (ch1 ch2 : string) :
  is_Some (fixed_blocks b !! (r, c)) → 0 ≤ r → 0 ≤ c →
  to_ascii (set_grid b r c ch1) = to_ascii (set_grid b r c ch2) ∧
  format_board_with_solution (set_grid b r c ch1)
  = format_board_with_solution (set_grid b r c ch2).
Proof.
  intros Hblk Hr Hc. split.
  - unfold to_ascii, ascii_rows.
    rewrite (cells_under_block_hidden ascii_cell b r c ch1 ch2); try done.
    intros b1 b2 r' c' Hfix Hgrid. unfold ascii_cell. rewrite <- Hfix.
    destruct (fixed_blocks b1 !! (r', c')); [done|]. by rewrite Hgrid.
  - unfold format_board_with_solution, solution_rows.
    rewrite (cells_under_block_hidden solution_cell b r c ch1 ch2); try done.
    intros b1 b2 r' c' Hfix Hgrid. unfold solution_cell. rewrite <- Hfix.
    destruct (fixed_blocks b1 !! (r', c')); [done|]. by rewrite Hgrid.
Qed.

Lemma output_hides_orientation_witness :
  to_ascii (set_grid slash_board_solved 0 0 "a") = to_ascii (set_grid slash_board_solved 0 0 "d") ∧
  format_board_with_solution (set_grid slash_board_solved 0 0 "a")
  = format_board_with_solution (set_grid slash_board_solved 0 0 "d").
Proof.
  apply (output_hides_orientation slash_board_solved 0 0 "a" "d").
  - vm_compute. eauto.
  - lia.
  - lia.
Defined.

(** ** board.py: printing a board built from a puzzle *)

Lemma rmapM_seqZ_from {A B} (l : list A) (f : Z → result B) (g : A → B) : ∀ m n,
  n = Z.of_nat (length l) →
  (∀ i a, l !! i = Some a → f (m + Z.of_nat i) = Ok (g a)) →
  rmapM f (seqZ m n) = Ok (map g l).
Proof.
  induction l as [|a rest IH]; intros m n Hn Hf.
  { by rewrite seqZ_nil by (simpl in Hn; lia). }
  rewrite seqZ_cons by (simpl in Hn; lia). cbn [rmapM].
  pose proof (Hf O a eq_refl) as H0. cbn [Z.of_nat] in H0. rewrite Z.add_0_r in H0.
  rewrite H0. cbn [rbind].
  rewrite (IH (Z.succ m) (Z.pred n)); [done|simpl in Hn; lia|].
  intros i a' Ha'. rewrite <- (Hf (S i) a' Ha'). f_equal. lia.
Qed.

Lemma rmapM_seqZ_lookup {A B} (l : list A) (f : Z → result B) (g : A → B) :
  (∀ i a, l !! i = Some a → f (Z.of_nat i) = Ok (g a)) →
  rmapM f (seqZ 0 (Z.of_nat (length l))) = Ok (map g l).
Proof. intros Hf. by apply rmapM_seqZ_from. Qed.

Lemma convert_row_letters r row : ∀ c fixed new_row fixed',
  convert_row r c row fixed = Ok (new_row, fixed') →
  (∀ r' c', r' ≠ r ∨ c' < c → fixed' !! (r', c') = fixed !! (r', c')) ∧
  (∀ i tok, row !! i = Some tok →
     String.eqb (upper tok) "A" || String.eqb (upper tok) "B"
     || String.eqb (upper tok) "C" = true →
     ∃ k, from_letter tok = Ok k ∧
          fixed' !! (r, c + Z.of_nat i) = Some (mkBlock k r (c + Z.of_nat i))).
Proof.
  induction row as [|tok rest IH]; intros c fixed new_row fixed'; simpl.
  { intros [= <- <-]. split; [done|]. by intros i tok' ?. }
  destruct (String.eqb (upper tok) "O" || String.eqb (upper tok) "X") eqn:Hox.
  - destruct (convert_row r (c + 1) rest fixed) as [[row1 fixed1]|e] eqn:Hrest;
      simpl; [|discriminate].
    intros [= <- <-]. destruct (IH _ _ _ _ Hrest) as [Hkeep Hletters]. split.
    + intros r' c' Hkey. apply Hkeep. lia.
    + intros [|i] tok'; simpl.
      * intros [= <-] Habc. exfalso.
        apply orb_true_iff in Hox as [H|H]; apply String.eqb_eq in H;
          rewrite H in Habc; discriminate.
      * intros Htok' Habc. destruct (Hletters i tok' Htok' Habc) as (k & Hk & Hfix).
        exists k. split; [done|].
        by replace (c + Z.of_nat (S i)) with (c + 1 + Z.of_nat i) by lia.
  - destruct (String.eqb (upper tok) "A" || String.eqb (upper tok) "B"
              || String.eqb (upper tok) "C") eqn:Habc; [|discriminate].
    destruct (from_letter_upper tok Habc) as [Hsame [k Hk]]. rewrite Hsame, Hk. simpl.
    destruct (convert_row r (c + 1) rest _) as [[row1 fixed1]|e] eqn:Hrest;
      simpl; [|discriminate].
    intros [= <- <-]. destruct (IH _ _ _ _ Hrest) as [Hkeep Hletters]. split.
    + intros r' c' Hkey. rewrite Hkeep by lia. apply lookup_insert_ne.
      intros [= -> ->]. lia.
    + intros [|i] tok'; simpl.
      * intros [= <-] _. exists k. split; [done|].
        rewrite Z.add_0_r, Hkeep by lia. apply lookup_insert_eq.
      * intros Htok' Habc'. destruct (Hletters i tok' Htok' Habc') as (k' & Hk' & Hfix).
        exists k'. split; [done|].
        by replace (c + Z.of_nat (S i)) with (c + 1 + Z.of_nat i) by lia.
Qed.

Lemma convert_rows_letters rows : ∀ r fixed new_grid fixed',
  convert_rows r rows fixed = Ok (new_grid, fixed') →
  (∀ r' c', r' < r → fixed' !! (r', c') = fixed !! (r', c')) ∧
  (∀ i j row tok, rows !! i = Some row → row !! j = Some tok →
     String.eqb (upper tok) "A" || String.eqb (upper tok) "B"
     || String.eqb (upper tok) "C" = true →
     ∃ k, from_letter tok = Ok k ∧
          fixed' !! (r + Z.of_nat i, Z.of_nat j)
          = Some (mkBlock k (r + Z.of_nat i) (Z.of_nat j))).
Proof.
  induction rows as [|row rest IH]; intros r fixed new_grid fixed'; simpl.
  { intros [= <- <-]. split; [done|]. by intros i j row tok ?. }
  destruct (convert_row r 0 row fixed) as [[row1 fixed1]|e] eqn:Hrow; simpl; [|discriminate].
  destruct (convert_rows (r + 1) rest fixed1) as [[grid2 fixed2]|e] eqn:Hrest;
    simpl; [|discriminate].
  intros [= <- <-].
  destruct (convert_row_letters _ _ _ _ _ _ Hrow) as [Hkeep1 Hletters1].
  destruct (IH _ _ _ _ Hrest) as [Hkeep2 Hletters2]. split.
  - intros r' c' Hr'. rewrite Hkeep2 by lia. apply Hkeep1. lia.
  - intros [|i] j row' tok; simpl.
    + intros [= <-] Htok Habc.
      destruct (Hletters1 j tok Htok Habc) as (k & Hk & Hfix).
      exists k. split; [done|]. rewrite Z.add_0_r, Hkeep2 by lia. exact Hfix.
    + intros Hrow' Htok Habc.
      destruct (Hletters2 i j row' tok Hrow' Htok Habc) as (k & Hk & Hfix).
      exists k. split; [done|].
      by replace (r + Z.of_nat (S i)) with (r + 1 + Z.of_nat i) by lia.
Qed.

Lemma letter_of_from_letter tok k :
  from_letter tok = Ok k →
  letter_of_kind k = upper tok ∧
  String.eqb (upper tok) "A" || String.eqb (upper tok) "B"
  || String.eqb (upper tok) "C" = true.
Proof.
  unfold from_letter.
  destruct (String.eqb_spec (upper tok) "A") as [->|_]; [by intros [= <-]|].
  destruct (String.eqb_spec (upper tok) "B") as [->|_]; [by intros [= <-]|].
  destruct (String.eqb_spec (upper tok) "C") as [->|_]; [by intros [= <-]|done].
Qed.

Lemma upper_canonical_token tok :
  is_grid_token tok = true → upper (canonical_token tok) = upper tok.
Proof.
  unfold is_grid_token, canonical_token.
  destruct (String.eqb_spec (upper tok) "O") as [->|_]; [done|].
  destruct (String.eqb_spec (upper tok) "X") as [->|_]; [done|].
  destruct (String.eqb_spec (upper tok) "A") as [->|_]; [done|].
  destruct (String.eqb_spec (upper tok) "B") as [->|_]; [done|].
  destruct (String.eqb_spec (upper tok) "C") as [->|_]; done.
Qed.

Lemma convert_row_upper r row1 : ∀ row2 c fixed,
  map upper row1 = map upper row2 →
  convert_row r c row1 fixed = convert_row r c row2 fixed.
Proof.
  induction row1 as [|t1 rest1 IH]; intros [|t2 rest2] c fixed; simpl; try done.
  intros [= Hup Hrest]. rewrite Hup.
  rewrite (IH rest2 (c + 1) fixed Hrest).
  destruct (from_letter (upper t2)) as [k|e]; [|done]. simpl.
  by rewrite (IH rest2 (c + 1) _ Hrest).
Qed.

Lemma convert_rows_upper rows1 : ∀ rows2 r fixed,
  map (map upper) rows1 = map (map upper) rows2 →
  convert_rows r rows1 fixed = convert_rows r rows2 fixed.
Proof.
  induction rows1 as [|row1 rest1 IH]; intros [|row2 rest2] r fixed; simpl; try done.
  intros [= Hrow Hrest]. rewrite (convert_row_upper r row1 row2 0 fixed Hrow).
  destruct (convert_row r 0 row2 fixed) as [res|e]; [|done]. simpl.
  by rewrite (IH rest2 (r + 1) res.2 Hrest).
Qed.

Lemma ascii_cell_from_bffspec spec b i j row tok :
  from_bffspec spec = Ok b →
  grid_tokens spec !! i = Some row → row !! j = Some tok →
  ascii_cell b (Z.of_nat i) (Z.of_nat j) = Ok (canonical_token tok).
Proof.
  intros Hb Hrow Htok.
  assert (Hat : grid_at (grid_tokens spec) (Z.of_nat i) (Z.of_nat j) = Some tok).
  { unfold grid_at. rewrite py_index_nonneg, Nat2Z.id, Hrow by lia. simpl.
    by rewrite py_index_nonneg, Nat2Z.id by lia. }
  pose proof (proj1 (from_bffspec_grid_facts spec b Hb)) as Hgrid.
  pose proof (Forall2_grid_at normalised_cell _ _ (Z.of_nat i) (Z.of_nat j) Hgrid
                ltac:(lia) ltac:(lia)) as Hcell.
  rewrite Hat in Hcell.
  pose proof (convert_rows_result (grid_tokens spec) 0 ∅) as Hvalid.
  revert Hb. unfold from_bffspec.
  destruct (convert_rows 0 (grid_tokens spec) ∅) as [[g fixed]|e] eqn:Hrows;
    simpl; [|discriminate].
  intros [= <-]. simpl in *. unfold ascii_cell. simpl.
  assert (Htokv : is_grid_token tok = true).
  { rewrite Forall_forall in Hvalid.
    specialize (Hvalid row (list_elem_of_lookup_2 _ _ _ Hrow)).
    rewrite Forall_forall in Hvalid. apply Hvalid. by eapply list_elem_of_lookup_2. }
  destruct (String.eqb (upper tok) "A" || String.eqb (upper tok) "B"
            || String.eqb (upper tok) "C") eqn:Habc.
  - destruct (proj2 (convert_rows_letters _ _ _ _ _ Hrows) i j row tok Hrow Htok Habc)
      as (k & Hk & Hfix).
    rewrite Z.add_0_l in Hfix. rewrite Hfix. simpl.
    destruct (letter_of_from_letter tok k Hk) as [-> _].
    unfold canonical_token. by rewrite Habc.
  - destruct (fixed !! (Z.of_nat i, Z.of_nat j)) as [blk|] eqn:Hblk.
    { destruct (proj2 (convert_rows_facts _ _ _ _ _ Hrows) _ _ blk Hblk)
        as [Hempty|(_ & _ & _ & row' & tok' & Hrow' & Htok' & Hk)].
      { by rewrite lookup_empty in Hempty. }
      rewrite Z.sub_0_r, Nat2Z.id in Hrow'. rewrite Nat2Z.id in Htok'.
      assert (tok' = tok) as -> by congruence.
      destruct (letter_of_from_letter tok _ Hk) as [_ Habc']. congruence. }
    destruct (grid_at g (Z.of_nat i) (Z.of_nat j)) as [cell|]; [|done].
    unfold normalised_cell in Hcell. subst cell. f_equal.
    unfold canonical_token. rewrite Habc.
    rewrite is_grid_token_split, Habc, orb_false_r in Htokv.
    destruct (String.eqb_spec (upper tok) "O") as [->|_]; [done|].
    simpl in Htokv. apply String.eqb_eq in Htokv as ->. done.
Qed.

(** X27. Printing a rectangular board built from a puzzle gives the puzzle
    grid back in canonical spelling (A, B, C in upper case, o and x in lower
    case), and reading that grid again builds the same board. *)
Theorem to_ascii_round_trip (spec : BFFSpec) (b : Board) :
  from_bffspec spec = Ok b →
  rectangular b →
  ascii_rows b = Ok (map (map canonical_token) (grid_tokens spec)) ∧
  from_bffspec
    (mkBFFSpec (map (map canonical_token) (grid_tokens spec)) (spec_free_blocks spec)
               (spec_lasers spec) (spec_points spec)) = Ok b.
Proof.
  intros Hb Hrect.
  pose proof (proj1 (from_bffspec_grid_facts spec b Hb)) as Hgrid.
  split.
  - unfold ascii_rows, nrows. rewrite <- (Forall2_length _ _ _ Hgrid).
    apply (rmapM_seqZ_lookup (grid_tokens spec) _ (map canonical_token)).
    intros i row Hrow.
    destruct (Forall2_lookup_l _ _ _ _ _ Hgrid Hrow) as (row' & Hrow' & Hcells).
    unfold rectangular in Hrect. rewrite Forall_forall in Hrect.
    rewrite <- (Hrect row' (list_elem_of_lookup_2 _ _ _ Hrow')).
    rewrite <- (Forall2_length _ _ _ Hcells).
    apply (rmapM_seqZ_lookup row _ canonical_token).
    intros j tok Htok. by eapply ascii_cell_from_bffspec.
  - assert (Hup : map (map upper) (map (map canonical_token) (grid_tokens spec))
                 = map (map upper) (grid_tokens spec)).
    { pose proof (convert_rows_result (grid_tokens spec) 0 ∅) as Hvalid.
      revert Hb Hvalid. unfold from_bffspec.
      destruct (convert_rows 0 (grid_tokens spec) ∅) as [res|e]; simpl; [|discriminate].
      intros _ Hvalid. clear -Hvalid.
      induction Hvalid as [|row rows Hrow _ IH]; simpl; [done|].
      f_equal; [|exact IH].
      induction Hrow as [|tok toks Htok _ IHrow]; simpl; [done|].
      f_equal; [by apply upper_canonical_token|exact IHrow]. }
    revert Hb. unfold from_bffspec. simpl.
    by rewrite (convert_rows_upper _ _ 0 ∅ Hup).
Qed.

Lemma to_ascii_round_trip_witness :
  ascii_rows fixed_mirror_board
  = Ok (map (map canonical_token) (grid_tokens fixed_mirror_spec)) ∧
  from_bffspec
    (mkBFFSpec (map (map canonical_token) (grid_tokens fixed_mirror_spec))
               (spec_free_blocks fixed_mirror_spec) (spec_lasers fixed_mirror_spec)
               (spec_points fixed_mirror_spec)) = Ok fixed_mirror_board.
Proof.
  apply (to_ascii_round_trip fixed_mirror_spec fixed_mirror_board).
  - vm_compute. reflexivity.
  - repeat constructor.
Defined.
